(** * stenc: SCSI SP-IN / SP-OUT encryption pages (src/scsiencrypt.h)

    A shallow embedding of the page layouts, the enumerations with their
    stream operators, the bit-field constants and the key-associated-data
    walker [read_page_kads] of namespace [scsi], followed by the properties
    proved about them.

    Conventions.
    - A byte of memory is a [Byte.byte]; a page lives in a buffer
      [list byte] whose element 0 is the first byte of the page.
    - Pointers into the page are byte offsets from its start, in [N]
      (the C++ pointer arithmetic is on a 64-bit address space and the
      offsets stay below 2^16 + 2^16 + 8, so nothing wraps).
    - [ntohs] applied to a 16-bit field stored in network order is the
      big-endian value of its two bytes.
    - A read outside the buffer is undefined in C++; the embedding makes it
      an explicit outcome instead of giving it a value. *)

From Stdlib Require Import Arith NArith List String Ascii Bool Lia.
From Stdlib Require Import Strings.Byte.
From Stdlib Require Import Sorting.Sorted.
Import ListNotations.

Open Scope N_scope.

(* ------------------------------------------------------------------ *)
(** ** Bytes and 16-bit network-order fields *)

Definition u8 (b : byte) : N := Byte.to_N b.

(** The byte whose value is [n mod 256] (a C++ narrowing conversion). *)
Definition byte_of_N (n : N) : byte :=
  match Byte.of_N (n mod 256) with
  | Some b => b
  | None => x00
  end.

(** [ntohs] of the field whose bytes in memory are [hi], [lo]. *)
Definition ntohs (hi lo : byte) : N := 256 * u8 hi + u8 lo.

(** The two bytes [htons n] leaves in memory, for a [uint16_t] n
    (the conversion to [uint16_t] truncates modulo 2^16). *)
Definition htons (n : N) : list byte :=
  [byte_of_N ((n mod 65536) / 256); byte_of_N (n mod 256)].

Definition buffer := list byte.

Definition load8 (buf : buffer) (off : N) : option byte :=
  nth_error buf (N.to_nat off).

(** [ntohs(p->field)] for a 16-bit field at offset [off]; [None] when one
    of its two bytes lies outside the buffer. *)
Definition load_ntohs (buf : buffer) (off : N) : option N :=
  match load8 buf off, load8 buf (off + 1) with
  | Some hi, Some lo => Some (ntohs hi lo)
  | _, _ => None
  end.

Definition buflen (buf : buffer) : N := N.of_nat (List.length buf).

(* ------------------------------------------------------------------ *)
(** ** Packed structure layouts *)

(** The member types that occur in the header. A flexible array member
    ([kad kads[]], [std::uint8_t key[]]) adds nothing to [sizeof]. *)
Inductive ctype : Type :=
| uint8_t | uint16_t | uint32_t | uint64_t
| std_byte | char_t
| enum_u8                       (* enum class ... : std::uint8_t *)
| struct_kad                    (* struct kad, 4 bytes before its descriptor *)
| array (t : ctype) (n : N)     (* t name[n] *)
| flexible (t : ctype).         (* t name[] *)

Fixpoint sizeof_type (t : ctype) : N :=
  match t with
  | uint8_t | std_byte | char_t | enum_u8 => 1
  | uint16_t => 2
  | uint32_t | struct_kad => 4
  | uint64_t => 8
  | array t n => n * sizeof_type t
  | flexible _ => 0
  end.

(** A [struct __attribute__((packed))]: its non-static data members in
    declaration order, laid out without padding. *)
Definition struct_def := list (string * ctype).

Fixpoint sizeof (s : struct_def) : N :=
  match s with
  | [] => 0
  | (_, t) :: rest => sizeof_type t + sizeof rest
  end.

Fixpoint offsetof (s : struct_def) (name : string) : option N :=
  match s with
  | [] => None
  | (n, t) :: rest =>
      if String.eqb n name then Some 0
      else option_map (N.add (sizeof_type t)) (offsetof rest name)
  end.

Fixpoint member_type (s : struct_def) (name : string) : option ctype :=
  match s with
  | [] => None
  | (n, t) :: rest => if String.eqb n name then Some t else member_type rest name
  end.

Open Scope string_scope.

(* ------------------------------------------------------------------ *)
(** ** Enumerations and their stream operators *)

(** An output stream is the text written to it so far. *)
Definition ostream := string.

(** [enum class encrypt_mode : std::uint8_t]. A value of the type is any
    byte; the enumerators name three of them. *)
Module encrypt_mode.
Definition t := byte.
Definition off : t := x00.
Definition external : t := x01.
Definition on : t := x02.
End encrypt_mode.

(** [std::ostream& operator<<(std::ostream& os, encrypt_mode m)] *)
Definition put_encrypt_mode (os : ostream) (m : encrypt_mode.t) : ostream :=
  if Byte.eqb m encrypt_mode.off then os ++ "off"
  else if Byte.eqb m encrypt_mode.external then os ++ "external"
  else os ++ "on".

(** [enum class decrypt_mode : std::uint8_t] *)
Module decrypt_mode.
Definition t := byte.
Definition off : t := x00.
Definition raw : t := x01.
Definition on : t := x02.
Definition mixed : t := x03.
End decrypt_mode.

(** [std::ostream& operator<<(std::ostream& os, decrypt_mode m)] *)
Definition put_decrypt_mode (os : ostream) (m : decrypt_mode.t) : ostream :=
  if Byte.eqb m decrypt_mode.off then os ++ "off"
  else if Byte.eqb m decrypt_mode.raw then os ++ "raw"
  else if Byte.eqb m decrypt_mode.on then os ++ "on"
  else os ++ "mixed".

(** [enum class kad_type : std::uint8_t] *)
Module kad_type.
Definition t := byte.
Definition ukad : t := x00.
Definition akad : t := x01.
Definition nonce : t := x02.
Definition mkad : t := x03.
Definition wkkad : t := x04.
End kad_type.

(** [enum class kadf : std::uint8_t] *)
Module kadf.
Definition t := byte.
Definition unspecified : t := x00.
Definition binary_key_name : t := x01.
Definition ascii_key_name : t := x02.
End kadf.

(* ------------------------------------------------------------------ *)
(** ** The structures *)

(** A [static constexpr std::byte mask {v << pos}] as a number. *)
Definition mask (v pos : N) : N := N.shiftl v pos.

(** [struct kad]: key-associated data. *)
Module kad.
Definition layout : struct_def :=
  [ ("type", enum_u8); ("flags", std_byte); ("length", uint16_t);
    ("descriptor", flexible uint8_t) ].
Definition flags_authenticated_pos : N := 0.
Definition flags_authenticated_mask : N := mask 7 flags_authenticated_pos.
End kad.

(** [struct page_header]: common 4-byte header of all pages. *)
Module page_header.
Definition layout : struct_def :=
  [ ("page_code", uint16_t); ("length", uint16_t) ].
End page_header.

(** [struct page_des]: device encryption status page. *)
Module page_des.
Definition layout : struct_def :=
  [ ("page_code", uint16_t); ("length", uint16_t);
    ("scope", std_byte);
    ("encryption_mode", enum_u8); ("decryption_mode", enum_u8);
    ("algorithm_index", uint8_t);
    ("key_instance_counter", uint32_t);
    ("flags", std_byte);
    ("kad_format", enum_u8);
    ("asdk_count", uint16_t);
    ("reserved", array std_byte 8);
    ("kads", flexible struct_kad) ].
Definition scope_it_nexus_pos : N := 5.
Definition scope_it_nexus_mask : N := mask 7 scope_it_nexus_pos.
Definition scope_encryption_pos : N := 0.
Definition scope_encryption_mask : N := mask 7 scope_encryption_pos.
Definition flags_parameters_control_pos : N := 4.
Definition flags_parameters_control_mask : N := mask 7 flags_parameters_control_pos.
Definition flags_vcelb_pos : N := 3.
Definition flags_vcelb_mask : N := mask 1 flags_vcelb_pos.
Definition flags_ceems_pos : N := 1.
Definition flags_ceems_mask : N := mask 3 flags_ceems_pos.
Definition flags_rdmd_pos : N := 0.
Definition flags_rdmd_mask : N := mask 1 flags_rdmd_pos.
End page_des.

(** [struct page_sde]: set data encryption page. *)
Module page_sde.
Definition layout : struct_def :=
  [ ("page_code", uint16_t); ("length", uint16_t);
    ("control", std_byte);
    ("flags", std_byte);
    ("encryption_mode", enum_u8); ("decryption_mode", enum_u8);
    ("algorithm_index", uint8_t);
    ("key_format", uint8_t);
    ("kad_format", enum_u8);
    ("reserved", array std_byte 7);
    ("key_length", uint16_t);
    ("key", flexible uint8_t) ].
Definition control_scope_pos : N := 5.
Definition control_scope_mask : N := mask 7 control_scope_pos.
Definition control_lock_pos : N := 0.
Definition control_lock_mask : N := mask 1 control_lock_pos.
(* check external encryption mode *)
Definition flags_ceem_pos : N := 6.
Definition flags_ceem_mask : N := mask 3 flags_ceem_pos.
(* raw decryption mode control *)
Definition flags_rdmc_pos : N := 4.
Definition flags_rdmc_mask : N := mask 3 flags_rdmc_pos.
(* supplemental decryption key *)
Definition flags_sdk_pos : N := 3.
Definition flags_sdk_mask : N := mask 1 flags_sdk_pos.
(* clear key on demount *)
Definition flags_ckod_pos : N := 2.
Definition flags_ckod_mask : N := mask 1 flags_ckod_pos.
(* clear key on reservation preempt *)
Definition flags_ckorp_pos : N := 1.
Definition flags_ckorp_mask : N := mask 1 flags_ckorp_pos.
(* clear key on reservation loss *)
Definition flags_ckorl_pos : N := 0.
Definition flags_ckorl_mask : N := mask 1 flags_ckorl_pos.
End page_sde.

(** [enum class sde_rdmc : std::uint8_t]; the enumerators are written
    already shifted into the rdmc field of [page_sde::flags]. *)
Module sde_rdmc.
Definition t := byte.
Definition algorithm_default : t := byte_of_N (N.shiftl 0 page_sde.flags_rdmc_pos).
Definition enabled : t := byte_of_N (N.shiftl 2 page_sde.flags_rdmc_pos).
Definition disabled : t := byte_of_N (N.shiftl 3 page_sde.flags_rdmc_pos).
Definition enumerators : list t := [algorithm_default; enabled; disabled].
End sde_rdmc.

(** [struct page_nbes]: next block encryption status page. *)
Module page_nbes.
Definition layout : struct_def :=
  [ ("page_code", uint16_t); ("length", uint16_t);
    ("logical_object_number", uint64_t);
    ("status", std_byte);
    ("algorithm_index", uint8_t);
    ("flags", std_byte);
    ("kad_format", enum_u8);
    ("kads", flexible struct_kad) ].
Definition status_compression_pos : N := 4.
Definition status_compression_mask : N := mask 15 status_compression_pos.
Definition status_encryption_pos : N := 0.
Definition status_encryption_mask : N := mask 15 status_encryption_pos.
Definition flags_emes_pos : N := 1.
Definition flags_emes_mask : N := mask 1 flags_emes_pos.
Definition flags_rdmds_pos : N := 0.
Definition flags_rdmds_mask : N := mask 1 flags_rdmds_pos.
End page_nbes.

(** [struct sense_data] *)
Module sense_data.
Definition layout : struct_def :=
  [ ("response", std_byte);
    ("reserved", std_byte);
    ("flags", std_byte);
    ("information", array uint8_t 4);
    ("additional_sense_length", uint8_t);
    ("command_specific_information", array uint8_t 4);
    ("additional_sense_code", uint8_t);
    ("additional_sense_qualifier", uint8_t);
    ("field_replaceable_unit_code", uint8_t);
    ("sense_key_specific", array uint8_t 3);
    ("additional_sense_bytes", flexible uint8_t) ].
Definition response_valid_pos : N := 7.
Definition response_valid_mask : N := mask 1 response_valid_pos.
Definition response_code_pos : N := 0.
Definition response_code_mask : N := mask 127 response_code_pos.
Definition flags_sense_key_pos : N := 0.
Definition flags_sense_key_mask : N := mask 15 flags_sense_key_pos.
Definition header_size : N := 8.
Definition maximum_size : N := 252.
Definition flags_filemark_pos : N := 7.
Definition flags_filemark_mask : N := mask 1 flags_filemark_pos.
Definition flags_eom_pos : N := 6. (* end of medium *)
Definition flags_eom_mask : N := mask 1 flags_eom_pos.
Definition flags_ili_pos : N := 5. (* incorrect length indicator *)
Definition flags_ili_mask : N := mask 1 flags_ili_pos.
Definition flags_sdat_ovfl_pos : N := 4. (* sense data overflow *)
Definition flags_sdat_ovfl_mask : N := mask 1 flags_sdat_ovfl_pos.
Definition no_sense : N := 0.
Definition recovered_error : N := 1.
Definition not_ready : N := 2.
Definition medium_error : N := 3.
Definition hardware_error : N := 4.
Definition illegal_request : N := 5.
Definition unit_attention : N := 6.
Definition data_protect : N := 7.
Definition blank_check : N := 8.
Definition sense_keys : list N :=
  [ no_sense; recovered_error; not_ready; medium_error; hardware_error;
    illegal_request; unit_attention; data_protect; blank_check ].
End sense_data.

(* ------------------------------------------------------------------ *)
(** ** Reading key-associated data: [read_page_kads] *)

Open Scope N_scope.

(** Offset of a member that the structure is known to have. *)
Definition field_offset (s : struct_def) (name : string) : N :=
  match offsetof s name with
  | Some o => o
  | None => 0
  end.

(** [ntohs(elem->length)] for the [kad] at offset [elem]. *)
Definition kad_length (buf : buffer) (elem : N) : option N :=
  load_ntohs buf (elem + field_offset kad.layout "length").

(** The cursor after the loop body ran at [it]:
    [it += ntohs(elem->length) + sizeof(kad)]. *)
Definition kad_next (buf : buffer) (it : N) : option N :=
  match kad_length buf it with
  | Some len => Some (it + (len + sizeof kad.layout))
  | None => None
  end.

(** [ntohs(page.length)]: every page starts with a [page_header]. *)
Definition page_length (buf : buffer) : option N :=
  load_ntohs buf (field_offset page_header.layout "length").

(** [end]: one past the last byte the page declares,
    [start + ntohs(page.length) + sizeof(page_header)], as an offset. *)
Definition page_end (buf : buffer) : option N :=
  match page_length buf with
  | Some len => Some (len + sizeof page_header.layout)
  | None => None
  end.

(** What a run of the walker produces. The vector of
    [std::reference_wrapper<const kad>] is the list of the offsets the
    references point to, in [push_back] order. *)
Inductive walk_result : Type :=
| Returned (v : list N)
    (* [return v] *)
| ReadOutside (v : list N) (off : N).
    (* the 16-bit load at [off] left the buffer; [v] as it was then *)

Definition yielded (r : walk_result) : list N :=
  match r with
  | Returned v => v
  | ReadOutside v _ => v
  end.

(** The [while (it < end)] loop. [fuel] bounds the number of times the
    body runs; [None] means the bound was reached with [it < end] still
    true. *)
Fixpoint kads_loop (fuel : nat) (buf : buffer) (end_ it : N) (v : list N)
  : option walk_result :=
  if it <? end_ then
    match fuel with
    | O => None
    | S fuel' =>
        let elem := it in
        let v := (v ++ [elem])%list in
        match kad_next buf it with
        | Some it' => kads_loop fuel' buf end_ it' v
        | None => Some (ReadOutside v (elem + field_offset kad.layout "length"))
        end
    end
  else Some (Returned v).

(** [template <typename Page> read_page_kads(const Page& page)], the page
    being at offset 0 of [buf]. *)
Definition read_page_kads (fuel : nat) (Page : struct_def) (buf : buffer)
  : option walk_result :=
  let it := sizeof Page in
  match page_end buf with
  | Some end_ => kads_loop fuel buf end_ it []
  | None => Some (ReadOutside [] (field_offset page_header.layout "length"))
  end.

(** Enough fuel for every page: [end] is at most 65535 + 4 and each
    iteration moves the cursor by at least 4. *)
Definition max_iterations : nat := N.to_nat 16385.

(** One past the last descriptor byte the record at [elem] declares. *)
Definition kad_end (buf : buffer) (elem : N) : option N := kad_next buf elem.

(** The records a walk from cursor [it] to boundary [end_] visits, and the
    cursor it stops at. *)
Inductive kad_chain (buf : buffer) (end_ : N) : N -> list N -> N -> Prop :=
| chain_stop : forall it,
    end_ <= it -> kad_chain buf end_ it [] it
| chain_step : forall it it' rest final,
    it < end_ ->
    kad_next buf it = Some it' ->
    kad_chain buf end_ it' rest final ->
    kad_chain buf end_ it (it :: rest) final.

(** Test pages. *)
Definition zeros (n : nat) : list byte := repeat x00 n.

(** A device encryption status page of declared length 28 (boundary 32)
    whose only record, at offset 24, declares 100 descriptor bytes. *)
Definition des_overrun : buffer :=
  ([x00; x20; x00; x1c] ++ zeros 20 ++ [x00; x00; x00; x64] ++ zeros 100)%list.

(** A device encryption status page of declared length 22 (boundary 26):
    two bytes are left after the fixed region. *)
Definition des_short_tail : buffer :=
  ([x00; x20; x00; x16] ++ zeros 20 ++ [x00; x00; x00; x00])%list.

(** A 28-byte buffer holding a device encryption status page that declares
    length 25 (boundary 29) and one record of one descriptor byte. *)
Definition des_declared_past_buffer : buffer :=
  ([x00; x20; x00; x19] ++ zeros 20 ++ [x00; x00; x00; x01])%list.

(** A 28-byte buffer whose page declares length 65535. *)
Definition des_declared_huge : buffer :=
  ([x00; x20; xff; xff] ++ zeros 20 ++ [x00; x00; x00; x00])%list.

(** A 26-byte buffer filled exactly by a device encryption status page of
    declared length 22 (boundary 26): the two bytes after the fixed region
    are the last two of the buffer. *)
Definition des_exact_fit : buffer :=
  ([x00; x20; x00; x16] ++ zeros 20 ++ [x00; x00])%list.

(** A device encryption status page with no record: declared length 20. *)
Definition des_no_kads : buffer :=
  ([x00; x20; x00; x14] ++ zeros 20)%list.

(** A device encryption status page with two records of 2 and 0
    descriptor bytes: declared length 20 + 6 + 4. *)
Definition des_two_kads : buffer :=
  ([x00; x20; x00; x1e] ++ zeros 20
     ++ [x00; x00; x00; x02; x41; x42] ++ [x02; x00; x00; x00])%list.

(* ------------------------------------------------------------------ *)
(** ** Building and decoding a set data encryption page *)

Definition len_N (l : list byte) : N := N.of_nat (List.length l).

(** [n] bytes of [buf] from offset [off]. *)
Definition slice (buf : buffer) (off n : N) : list byte :=
  firstn (N.to_nat n) (skipn (N.to_nat off) buf).

(** The members of a decoded set data encryption page that a caller of the
    builder supplied. *)
Record sde_view : Type := {
  view_encryption_mode : encrypt_mode.t;
  view_decryption_mode : decrypt_mode.t;
  view_algorithm_index : byte;
  view_key : list byte;
  view_key_name : option (list byte)
}.

Section SetDataEncryption.

(** The header declares [make_sde] and gives the layout of [page_sde];
    the values the builder writes for the page code, the control byte,
    the key format and the flag bits that no parameter controls are not
    in the header and not fixed by the specification. *)
Variable sde_page_code : N.
Variable control : byte.
Variable key_format : byte.
Variable flags_base : N.

(** Modelled from the spec: the flags byte [make_sde] composes (section
    4.3). The rdmc enumerator is already in field position,
    clear-key-on-demount sets its one bit. *)
Definition sde_flags (rdmc : sde_rdmc.t) (ckod : bool) : byte :=
  byte_of_N (N.lor (N.lor flags_base (u8 rdmc))
                   (if ckod then page_sde.flags_ckod_mask else 0)).

(** Modelled from the spec: the record [make_sde] appends for a key name
    (section 4.3): type unauthenticated key data, length the name's byte
    length, descriptor the name's bytes. *)
Definition key_name_kad (name : list byte) : list byte :=
  ([kad_type.ukad; x00] ++ htons (len_N name) ++ name)%list.

Definition key_name_kads (key_name : option (list byte)) : list byte :=
  match key_name with
  | Some name => key_name_kad name
  | None => []
  end.

(** Modelled from the spec: the fixed region [make_sde] writes, laid out
    as [page_sde]. The 20 bytes before the key: header, control, flags,
    modes, algorithm index, key format, KAD format, 7 reserved bytes and
    the key length, the 16-bit members in network order. *)
Definition sde_fixed_region (length : N) (flags : byte)
    (enc_mode : encrypt_mode.t) (dec_mode : decrypt_mode.t)
    (algorithm_index : byte) (kad_format : kadf.t) (key_length : N)
  : list byte :=
  (htons sde_page_code
     ++ htons (length - sizeof page_header.layout)
     ++ [control; flags;
         enc_mode; dec_mode; algorithm_index; key_format; kad_format]
     ++ zeros 7
     ++ htons key_length)%list.

(** Modelled from the spec: the body of [make_sde], which the header
    only declares (section 4.3, Outbound Page Builder). The fixed region
    follows [page_sde]; the key bytes follow it; one key-name record
    follows the key when a name is supplied; the page length is the
    buffer size minus the 4-byte header, in network order. The header
    passes the key name as a [std::string]; the specification calls it
    optional, which is what the [option] says. *)
Definition make_sde (enc_mode : encrypt_mode.t) (dec_mode : decrypt_mode.t)
    (algorithm_index : byte) (key : list byte)
    (key_name : option (list byte)) (kad_format : kadf.t)
    (rdmc : sde_rdmc.t) (ckod : bool) : buffer :=
  let kads := key_name_kads key_name in
  let length := sizeof page_sde.layout + len_N key + len_N kads in
  (sde_fixed_region length (sde_flags rdmc ckod) enc_mode dec_mode
                    algorithm_index kad_format (len_N key)
     ++ key
     ++ kads)%list.

(** Modelled from the spec: the valid parameter sets of [make_sde], those
    the page can carry: its length field is 16 bits. *)
Definition valid_sde_params (key : list byte) (key_name : option (list byte))
  : Prop :=
  sizeof page_sde.layout + len_N key + len_N (key_name_kads key_name)
    - sizeof page_header.layout <= 65535.

(** Modelled from the spec: decoding a set data encryption page
    (section 4.1, Page Codec, and the record step of section 4.2), which
    the header has no function for. The members are read at the offsets
    of [page_sde]; [None] is the format error: the buffer is shorter than
    the fixed region, the page code is not the expected one, the declared
    length passes the end of the buffer, or the key or the record after
    it passes the declared boundary. *)
Definition parse_sde (buf : buffer) : option sde_view :=
  let off := field_offset page_sde.layout in
  if buflen buf <? sizeof page_sde.layout then None else
  match load_ntohs buf (off "page_code"), page_end buf,
        load8 buf (off "encryption_mode"), load8 buf (off "decryption_mode"),
        load8 buf (off "algorithm_index"), load_ntohs buf (off "key_length")
  with
  | Some code, Some end_, Some enc, Some dec, Some alg, Some klen =>
      let key_end := off "key" + klen in
      if negb (code =? sde_page_code) then None
      else if buflen buf <? end_ then None
      else if end_ <? key_end then None
      else
        let key := slice buf (off "key") klen in
        if key_end =? end_ then
          Some {| view_encryption_mode := enc; view_decryption_mode := dec;
                  view_algorithm_index := alg; view_key := key;
                  view_key_name := None |}
        else if end_ <? key_end + sizeof kad.layout then None
        else
          match kad_next buf key_end with
          | Some next =>
              if end_ <? next then None
              else
                Some {| view_encryption_mode := enc;
                        view_decryption_mode := dec;
                        view_algorithm_index := alg; view_key := key;
                        view_key_name :=
                          Some (slice buf (key_end + sizeof kad.layout)
                                      (next - (key_end + sizeof kad.layout))) |}
          | None => None
          end
  | _, _, _, _, _, _ => None
  end.

End SetDataEncryption.

Definition name_bytes (s : string) : list byte := list_byte_of_string s.

(* ------------------------------------------------------------------ *)
(** ** Reading layouts and masks *)

(** Name, byte offset and width of every member, in declaration order,
    the first member being at offset [base]. *)
Fixpoint member_table (base : N) (s : struct_def) : list (string * N * N) :=
  match s with
  | [] => []
  | (n, t) :: rest =>
      (n, base, sizeof_type t) :: member_table (base + sizeof_type t) rest
  end.

(** The bit positions set in a [std::byte] mask. *)
Definition bits_of (m : N) : list N :=
  filter (N.testbit m) [0; 1; 2; 3; 4; 5; 6; 7].

(** Two masks share no bit. *)
Definition disjoint (m1 m2 : N) : Prop := N.land m1 m2 = 0.

(** The value lies entirely within the mask. *)
Definition within (v m : N) : Prop := N.land v m = v.

(* ------------------------------------------------------------------ *)
(** ** The remaining structures of the header *)

(** [struct algorithm_descriptor] *)
Module algorithm_descriptor.
Definition layout : struct_def :=
  [ ("algorithm_index", uint8_t);
    ("reserved1", std_byte);
    ("length", uint16_t);
    ("flags1", std_byte);
    ("flags2", std_byte);
    ("maximum_ukad_length", uint16_t);
    ("maximum_akad_length", uint16_t);
    ("key_length", uint16_t);
    ("flags3", std_byte);
    ("maximum_eedk_count", uint8_t);
    ("msdk_count", uint16_t);
    ("maximum_eedk_size", uint16_t);
    ("reserved2", array std_byte 2);
    ("security_algorithm_code", uint32_t) ].
(* algorithm valid for mounted volume *)
Definition flags1_avfmv_pos : N := 7.
Definition flags1_avfmv_mask : N := mask 1 flags1_avfmv_pos.
(* supplemental decryption key capable *)
Definition flags1_sdk_c_pos : N := 6.
Definition flags1_sdk_c_mask : N := mask 1 flags1_sdk_c_pos.
(* message authentication code capable *)
Definition flags1_mac_c_pos : N := 5.
Definition flags1_mac_c_mask : N := mask 1 flags1_mac_c_pos.
(* distinguish encrypted logical block capable *)
Definition flags1_delb_c_pos : N := 4.
Definition flags1_delb_c_mask : N := mask 1 flags1_delb_c_pos.
(* decryption capabilities *)
Definition flags1_decrypt_c_pos : N := 2.
Definition flags1_decrypt_c_mask : N := mask 3 flags1_decrypt_c_pos.
(* encryption capabilities *)
Definition flags1_encrypt_c_pos : N := 0.
Definition flags1_encrypt_c_mask : N := mask 3 flags1_encrypt_c_pos.
(* algorithm valid for current logical position *)
Definition flags2_avfcp_pos : N := 6.
Definition flags2_avfcp_mask : N := mask 3 flags2_avfcp_pos.
(* nonce capabilities *)
Definition flags2_nonce_pos : N := 4.
Definition flags2_nonce_mask : N := mask 3 flags2_nonce_pos.
(* KAD format capable *)
Definition flags2_kadf_c_pos : N := 3.
Definition flags2_kadf_c_mask : N := mask 1 flags2_kadf_c_pos.
(* volume contains encrypted logical blocks capable *)
Definition flags2_vcelb_c_pos : N := 2.
Definition flags2_vcelb_c_mask : N := mask 1 flags2_vcelb_c_pos.
(* U-KAD fixed *)
Definition flags2_ukadf_pos : N := 1.
Definition flags2_ukadf_mask : N := mask 1 flags2_ukadf_pos.
(* A-KAD fixed *)
Definition flags2_akadf_pos : N := 0.
Definition flags2_akadf_mask : N := mask 1 flags2_akadf_pos.
(* decryption capabilities *)
Definition flags3_dkad_c_pos : N := 6.
Definition flags3_dkad_c_mask : N := mask 3 flags3_dkad_c_pos.
(* external encryption mode control capabilities *)
Definition flags3_eemc_c_pos : N := 4.
Definition flags3_eemc_c_mask : N := mask 3 flags3_eemc_c_pos.
(* raw decryption mode control capabilities *)
Definition flags3_rdmc_c_pos : N := 1.
Definition flags3_rdmc_c_mask : N := mask 7 flags3_rdmc_c_pos.
(* encryption algorithm records encryption mode *)
Definition flags3_earem_pos : N := 0.
Definition flags3_earem_mask : N := mask 1 flags3_earem_pos.
Definition maximum_eedk_count_pos : N := 0.
Definition maximum_eedk_count_mask : N := mask 15 maximum_eedk_count_pos.
Definition header_size : N := 4.
End algorithm_descriptor.

(** [struct page_dec]: device encryption capabilities page. The flexible
    member [ads] is an array of [algorithm_descriptor], 24 bytes each. *)
Module page_dec.
Definition layout : struct_def :=
  [ ("page_code", uint16_t); ("length", uint16_t);
    ("flags", std_byte);
    ("reserved", array std_byte 15);
    ("ads", flexible (array std_byte 24)) ].
(* external data encryption control capable *)
Definition flags_extdecc_pos : N := 2.
Definition flags_extdecc_mask : N := mask 3 flags_extdecc_pos.
(* configuration prevented *)
Definition flags_cfg_p_pos : N := 0.
Definition flags_cfg_p_mask : N := mask 3 flags_cfg_p_pos.
End page_dec.

(** [struct inquiry_data] *)
Module inquiry_data.
Definition layout : struct_def :=
  [ ("peripheral", std_byte);
    ("flags1", std_byte);
    ("version", uint8_t);
    ("flags2", std_byte);
    ("additional_length", uint8_t);
    ("flags3", std_byte);
    ("flags4", std_byte);
    ("flags5", std_byte);
    ("vendor", array char_t 8);
    ("product_id", array char_t 16);
    ("product_rev", array char_t 4);
    ("vendor_specific", array uint8_t 20);
    ("reserved1", array std_byte 2);
    ("version_descriptor", array uint16_t 8);
    ("reserved2", array std_byte 22) ].
Definition header_size : N := 5.
End inquiry_data.

(** [constexpr std::size_t SSP_PAGE_ALLOCATION]: the size of a
    [page_buffer]. *)
Definition SSP_PAGE_ALLOCATION : N := 8192.

(** [using sense_buffer = std::array<std::uint8_t, sense_data::maximum_size>] *)
Definition is_sense_buffer (buf : buffer) : Prop :=
  buflen buf = sense_data.maximum_size.

(** [scsi_error::get_sense]: the [sense_data] overlaid on the first byte
    of the sense buffer; a member is read at its offset in that buffer. *)
Definition get_sense (sense_buf : buffer) (member : string) : option (list byte) :=
  match offsetof sense_data.layout member, member_type sense_data.layout member with
  | Some off, Some t =>
      if buflen sense_buf <? off + sizeof_type t then None
      else Some (slice sense_buf off (sizeof_type t))
  | _, _ => None
  end.

(* ------------------------------------------------------------------ *)
(** ** Records as a caller reads them *)

(** What a reference to a [kad] gives access to: [type], [flags] and the
    [ntohs(length)] bytes of [descriptor]. *)
Record kad_view : Type := {
  kad_view_type : kad_type.t;
  kad_view_flags : byte;
  kad_view_descriptor : list byte
}.

(** Reading the record at offset [elem] through its reference; [None]
    when a byte of it lies outside the buffer. *)
Definition read_kad (buf : buffer) (elem : N) : option kad_view :=
  match load8 buf (elem + field_offset kad.layout "type"),
        load8 buf (elem + field_offset kad.layout "flags"),
        kad_length buf elem with
  | Some t, Some f, Some len =>
      let descriptor := elem + field_offset kad.layout "descriptor" in
      if buflen buf <? descriptor + len then None
      else Some {| kad_view_type := t; kad_view_flags := f;
                   kad_view_descriptor := slice buf descriptor len |}
  | _, _, _ => None
  end.

(** The bytes of a record in memory, laid out as [struct kad]. *)
Definition kad_bytes (k : kad_view) : list byte :=
  ([kad_view_type k; kad_view_flags k]
     ++ htons (len_N (kad_view_descriptor k))
     ++ kad_view_descriptor k)%list.

(** Records one after the other, with no gap. *)
Definition kads_bytes (ks : list kad_view) : list byte :=
  List.concat (map kad_bytes ks).

(** Where each of the records starts when the first starts at [start]. *)
Fixpoint kad_offsets (start : N) (ks : list kad_view) : list N :=
  match ks with
  | [] => []
  | k :: rest => start :: kad_offsets (start + len_N (kad_bytes k)) rest
  end.

(** A page in a [page_buffer]: the bytes given, then zeros up to
    [SSP_PAGE_ALLOCATION]. *)
Definition in_page_buffer (page : list byte) : buffer :=
  (page ++ zeros (N.to_nat SSP_PAGE_ALLOCATION - List.length page))%list.

(* ------------------------------------------------------------------ *)
(** ** Fields of a byte *)

Definition lor_all (ms : list N) : N := fold_right N.lor 0 ms.

Fixpoint pairwise_disjoint (ms : list N) : Prop :=
  match ms with
  | [] => True
  | m :: rest => Forall (disjoint m) rest /\ pairwise_disjoint rest
  end.

(** The masks share no bit and together cover exactly the bits of [all]. *)
Definition tiles (all : N) (ms : list N) : Prop :=
  pairwise_disjoint ms /\ lor_all ms = all.

(* ------------------------------------------------------------------ *)
(** * Properties *)

(** ** Bytes and 16-bit fields *)

Lemma u8_bound (b : byte) : u8 b <= 255.
Proof. apply Byte.to_N_bounded. Qed.

Lemma u8_byte_of_N (n : N) : u8 (byte_of_N n) = n mod 256.
Proof.
  unfold u8, byte_of_N.
  destruct (Byte.of_N (n mod 256)) as [b|] eqn:E.
  - now apply Byte.to_of_N.
  - apply Byte.of_N_None_iff in E.
    assert (n mod 256 < 256) by (apply N.mod_lt; discriminate). lia.
Qed.

Lemma ntohs_bound (hi lo : byte) : ntohs hi lo <= 65535.
Proof.
  unfold ntohs. pose proof (u8_bound hi). pose proof (u8_bound lo). lia.
Qed.

Lemma load_ntohs_bound (buf : buffer) (off n : N) :
  load_ntohs buf off = Some n -> n <= 65535.
Proof.
  unfold load_ntohs.
  destruct (load8 buf off); [|discriminate].
  destruct (load8 buf (off + 1)); [|discriminate].
  intros [= <-]. apply ntohs_bound.
Qed.

Lemma load8_inside (buf : buffer) (off : N) :
  off < buflen buf -> exists b, load8 buf off = Some b.
Proof.
  unfold load8, buflen. intros H.
  destruct (nth_error buf (N.to_nat off)) as [b|] eqn:E; [now exists b|].
  apply nth_error_None in E. lia.
Qed.

Lemma load8_outside (buf : buffer) (off : N) :
  load8 buf off = None -> buflen buf <= off.
Proof.
  unfold load8, buflen. intros E. apply nth_error_None in E. lia.
Qed.

Lemma load_ntohs_inside (buf : buffer) (off : N) :
  off + 2 <= buflen buf -> exists n, load_ntohs buf off = Some n.
Proof.
  intros H. unfold load_ntohs.
  destruct (load8_inside buf off) as [hi ->]; [lia|].
  destruct (load8_inside buf (off + 1)) as [lo ->]; [lia|].
  eauto.
Qed.

Lemma load_ntohs_outside (buf : buffer) (off : N) :
  load_ntohs buf off = None -> buflen buf < off + 2.
Proof.
  unfold load_ntohs. intros H.
  destruct (load8 buf off) eqn:E1.
  - destruct (load8 buf (off + 1)) eqn:E2; [discriminate|].
    apply load8_outside in E2. lia.
  - apply load8_outside in E1. lia.
Qed.

(** ** The walker's loop *)

Lemma sizeof_kad : sizeof kad.layout = 4.
Proof. reflexivity. Qed.

Lemma sizeof_page_header : sizeof page_header.layout = 4.
Proof. reflexivity. Qed.

Lemma kad_next_spec (buf : buffer) (it it' : N) :
  kad_next buf it = Some it' <->
  exists len, kad_length buf it = Some len /\ it' = it + (4 + len).
Proof.
  unfold kad_next. rewrite sizeof_kad. split.
  - destruct (kad_length buf it) as [len|]; [|discriminate].
    intros [= <-]. exists len. split; [reflexivity | lia].
  - intros (len & -> & ->). f_equal. lia.
Qed.

Lemma kad_next_advance (buf : buffer) (it it' : N) :
  kad_next buf it = Some it' -> it + 4 <= it' /\ it' <= it + 65539.
Proof.
  intros H. apply kad_next_spec in H. destruct H as (len & Hlen & ->).
  apply load_ntohs_bound in Hlen. lia.
Qed.

Lemma kad_next_inside (buf : buffer) (it : N) :
  it + 4 <= buflen buf -> exists it', kad_next buf it = Some it'.
Proof.
  intros H. unfold kad_next, kad_length.
  change (field_offset kad.layout "length") with 2.
  destruct (load_ntohs_inside buf (it + 2)) as [len ->]; [lia|]. eauto.
Qed.

Lemma kad_next_outside (buf : buffer) (it : N) :
  kad_next buf it = None ->
  buflen buf < it + field_offset kad.layout "length" + 2.
Proof.
  unfold kad_next, kad_length. intros H.
  destruct (load_ntohs buf (it + field_offset kad.layout "length")) eqn:E;
    [discriminate|].
  now apply load_ntohs_outside.
Qed.

Lemma page_end_bound (buf : buffer) (end_ : N) :
  page_end buf = Some end_ -> 4 <= end_ /\ end_ <= 65539.
Proof.
  unfold page_end, page_length. rewrite sizeof_page_header.
  destruct (load_ntohs buf _) as [len|] eqn:E; [|discriminate].
  intros [= <-]. apply load_ntohs_bound in E. lia.
Qed.

Lemma max_iterations_N : N.of_nat max_iterations = 16385.
Proof. unfold max_iterations. apply N2Nat.id. Qed.

(** The loop exits at once when the cursor is not below the boundary. *)
Lemma kads_loop_exit (fuel : nat) (buf : buffer) (end_ it : N) (v : list N) :
  end_ <= it -> kads_loop fuel buf end_ it v = Some (Returned v).
Proof.
  intros H. destruct fuel; simpl;
    (destruct (it <? end_) eqn:E; [apply N.ltb_lt in E; lia | reflexivity]).
Qed.

(** One run of the body. *)
Lemma kads_loop_body (fuel : nat) (buf : buffer) (end_ it : N) (v : list N) :
  it < end_ ->
  kads_loop (S fuel) buf end_ it v =
  match kad_next buf it with
  | Some it' => kads_loop fuel buf end_ it' (v ++ [it])%list
  | None => Some (ReadOutside (v ++ [it])%list
                    (it + field_offset kad.layout "length"))
  end.
Proof.
  intros H. simpl. apply N.ltb_lt in H. now rewrite H.
Qed.

Lemma kads_loop_out_of_fuel (buf : buffer) (end_ it : N) (v : list N) :
  it < end_ -> kads_loop 0 buf end_ it v = None.
Proof. intros H. simpl. apply N.ltb_lt in H. now rewrite H. Qed.

(** The loop stops within the fuel whenever four bytes per unit of fuel
    cover the distance to the boundary. *)
Lemma kads_loop_total (fuel : nat) (buf : buffer) (end_ : N) :
  forall it v, end_ <= it + 4 * N.of_nat fuel ->
  exists r, kads_loop fuel buf end_ it v = Some r.
Proof.
  induction fuel as [| fuel IH]; intros it v Hf.
  - rewrite kads_loop_exit by lia. eauto.
  - destruct (N.lt_ge_cases it end_) as [Hlt | Hge].
    + rewrite kads_loop_body by assumption.
      destruct (kad_next buf it) as [it'|] eqn:E; [|eauto].
      apply kad_next_advance in E. apply IH. lia.
    + rewrite kads_loop_exit by assumption. eauto.
Qed.

(** More fuel does not change a result. *)
Lemma kads_loop_fuel_mono (fuel : nat) (buf : buffer) (end_ : N) :
  forall fuel' it v r, (fuel <= fuel')%nat ->
  kads_loop fuel buf end_ it v = Some r ->
  kads_loop fuel' buf end_ it v = Some r.
Proof.
  induction fuel as [| fuel IH]; intros fuel' it v r Hle H.
  - destruct (N.lt_ge_cases it end_) as [Hlt | Hge].
    + rewrite kads_loop_out_of_fuel in H by assumption. discriminate.
    + rewrite kads_loop_exit in * by assumption. assumption.
  - destruct (N.lt_ge_cases it end_) as [Hlt | Hge].
    + destruct fuel' as [| fuel']; [lia|].
      rewrite kads_loop_body in * by assumption.
      destruct (kad_next buf it); [|assumption].
      apply IH; [lia | assumption].
    + rewrite kads_loop_exit in * by assumption. assumption.
Qed.

(** The result extends the vector the loop started with, by at most one
    element per unit of fuel. *)
Lemma kads_loop_prefix (fuel : nat) (buf : buffer) (end_ : N) :
  forall it v r, kads_loop fuel buf end_ it v = Some r ->
  exists recs, yielded r = (v ++ recs)%list /\ (List.length recs <= fuel)%nat.
Proof.
  induction fuel as [| fuel IH]; intros it v r H.
  - destruct (N.lt_ge_cases it end_) as [Hlt | Hge].
    + rewrite kads_loop_out_of_fuel in H by assumption. discriminate.
    + rewrite kads_loop_exit in H by assumption. injection H as <-.
      exists []. simpl. rewrite app_nil_r. split; [reflexivity | lia].
  - destruct (N.lt_ge_cases it end_) as [Hlt | Hge].
    + rewrite kads_loop_body in H by assumption.
      destruct (kad_next buf it) as [it'|].
      * apply IH in H. destruct H as (recs & -> & Hn).
        exists (it :: recs). rewrite <- app_assoc. simpl. split; [reflexivity | lia].
      * injection H as <-. exists [it]. simpl. split; [reflexivity | lia].
    + rewrite kads_loop_exit in H by assumption. injection H as <-.
      exists []. simpl. rewrite app_nil_r. split; [reflexivity | lia].
Qed.

(** A normal return lists exactly the chain of records from the cursor. *)
Lemma kads_loop_chain (fuel : nat) (buf : buffer) (end_ : N) :
  forall it v0 v, kads_loop fuel buf end_ it v0 = Some (Returned v) ->
  exists recs final, v = (v0 ++ recs)%list /\ kad_chain buf end_ it recs final.
Proof.
  induction fuel as [| fuel IH]; intros it v0 v H.
  - destruct (N.lt_ge_cases it end_) as [Hlt | Hge].
    + rewrite kads_loop_out_of_fuel in H by assumption. discriminate.
    + rewrite kads_loop_exit in H by assumption. injection H as <-.
      exists [], it. rewrite app_nil_r. split; [reflexivity | now constructor].
  - destruct (N.lt_ge_cases it end_) as [Hlt | Hge].
    + rewrite kads_loop_body in H by assumption.
      destruct (kad_next buf it) as [it'|] eqn:E; [|discriminate].
      apply IH in H. destruct H as (recs & final & -> & Hc).
      exists (it :: recs), final. rewrite <- app_assoc. split; [reflexivity|].
      econstructor; eassumption.
    + rewrite kads_loop_exit in H by assumption. injection H as <-.
      exists [], it. rewrite app_nil_r. split; [reflexivity | now constructor].
Qed.

(** A read outside the buffer is the length field of the last record
    pushed, which starts below the boundary. *)
Lemma kads_loop_outside (fuel : nat) (buf : buffer) (end_ : N) :
  forall it v0 v off, kads_loop fuel buf end_ it v0 = Some (ReadOutside v off) ->
  buflen buf < off + 2 /\ off < end_ + 2.
Proof.
  induction fuel as [| fuel IH]; intros it v0 v off H.
  - destruct (N.lt_ge_cases it end_) as [Hlt | Hge].
    + rewrite kads_loop_out_of_fuel in H by assumption. discriminate.
    + rewrite kads_loop_exit in H by assumption. discriminate.
  - destruct (N.lt_ge_cases it end_) as [Hlt | Hge].
    + rewrite kads_loop_body in H by assumption.
      destruct (kad_next buf it) as [it'|] eqn:E.
      * eapply IH; eassumption.
      * injection H as <- <-. apply kad_next_outside in E.
        change (field_offset kad.layout "length") with 2 in *. lia.
    + rewrite kads_loop_exit in H by assumption. discriminate.
Qed.

(** When every record header below the boundary lies in the buffer the
    loop returns. *)
Lemma kads_loop_returns (fuel : nat) (buf : buffer) (end_ : N) :
  end_ + 3 <= buflen buf ->
  forall it v r, kads_loop fuel buf end_ it v = Some r -> exists v', r = Returned v'.
Proof.
  intros Hb. induction fuel as [| fuel IH]; intros it v r H.
  - destruct (N.lt_ge_cases it end_) as [Hlt | Hge].
    + rewrite kads_loop_out_of_fuel in H by assumption. discriminate.
    + rewrite kads_loop_exit in H by assumption. injection H as <-. eauto.
  - destruct (N.lt_ge_cases it end_) as [Hlt | Hge].
    + rewrite kads_loop_body in H by assumption.
      destruct (kad_next_inside buf it) as [it' E]; [lia|].
      rewrite E in H. eapply IH; eassumption.
    + rewrite kads_loop_exit in H by assumption. injection H as <-. eauto.
Qed.

(** ** Chains of records *)

Lemma kad_chain_final (buf : buffer) (end_ it final : N) (recs : list N) :
  kad_chain buf end_ it recs final -> end_ <= final /\ it <= final.
Proof.
  induction 1 as [it Hge | it it' rest final Hlt Hn Hc IH].
  - lia.
  - apply kad_next_advance in Hn. lia.
Qed.

Lemma kad_chain_starts (buf : buffer) (end_ it final : N) (recs : list N) :
  kad_chain buf end_ it recs final ->
  forall r, In r recs -> it <= r /\ r < end_.
Proof.
  induction 1 as [it Hge | it it' rest final Hlt Hn Hc IH]; intros r Hin.
  - destruct Hin.
  - destruct Hin as [<- | Hin]; [lia|].
    apply kad_next_advance in Hn. specialize (IH r Hin). lia.
Qed.

(** Every record but the last ends strictly below the boundary: the next
    record starts where it ends. *)
Lemma kad_chain_inner (buf : buffer) (end_ it final : N) (recs : list N) :
  kad_chain buf end_ it recs final ->
  forall r, In r (removelast recs) ->
  exists e, kad_end buf r = Some e /\ e < end_.
Proof.
  induction 1 as [it Hge | it it' rest final Hlt Hn Hc IH]; intros r Hin.
  - destruct Hin.
  - destruct rest as [| r' rest'].
    + destruct Hin.
    + change (removelast (it :: r' :: rest')) with (it :: removelast (r' :: rest')) in Hin.
      destruct Hin as [<- | Hin].
      * exists it'. split; [exact Hn|]. inversion Hc; subst. assumption.
      * apply IH. exact Hin.
Qed.

(** The last record ends where the walk stops, at or past the boundary. *)
Lemma kad_chain_last (buf : buffer) (end_ it final : N) (recs : list N) :
  kad_chain buf end_ it recs final ->
  forall r, recs <> [] -> last recs r < end_ /\ kad_end buf (last recs r) = Some final.
Proof.
  induction 1 as [it Hge | it it' rest final Hlt Hn Hc IH]; intros r Hne.
  - congruence.
  - destruct rest as [| r' rest'].
    + inversion Hc; subst. simpl. split; assumption.
    + change (last (it :: r' :: rest') r) with (last (r' :: rest') r).
      apply IH. discriminate.
Qed.

(** Consecutive records are 4 + length apart. *)
Lemma kad_chain_adjacent (buf : buffer) (end_ it final : N) (recs : list N) :
  kad_chain buf end_ it recs final ->
  forall pre r r' post, recs = (pre ++ r :: r' :: post)%list ->
  exists len, kad_length buf r = Some len /\ r' = r + (4 + len).
Proof.
  induction 1 as [it Hge | it it' rest final Hlt Hn Hc IH];
    intros pre r r' post Heq.
  - destruct pre; discriminate.
  - destruct pre as [| p pre]; simpl in Heq.
    + injection Heq as <- ->. inversion Hc; subst.
      now apply kad_next_spec.
    + injection Heq as <- ->. eapply IH. reflexivity.
Qed.

Lemma kad_chain_head (buf : buffer) (end_ it final : N) (recs : list N) :
  kad_chain buf end_ it recs final ->
  forall r rest, recs = r :: rest -> r = it.
Proof. destruct 1; intros r rest' Heq; [discriminate | now injection Heq]. Qed.

(** Every record of a chain ends at or before the cursor the walk stops
    at. *)
Lemma kad_chain_ends (buf : buffer) (end_ it final : N) (recs : list N) :
  kad_chain buf end_ it recs final ->
  forall r, In r recs -> exists e, kad_end buf r = Some e /\ e <= final.
Proof.
  induction 1 as [it Hge | it it' rest final Hlt Hn Hc IH]; intros r Hin.
  - destruct Hin.
  - destruct Hin as [<- | Hin].
    + exists it'. split; [exact Hn|]. now apply kad_chain_final in Hc.
    + now apply IH.
Qed.

(** A walk that ends at a load outside the buffer pushed the chain of
    records up to some record [x] below the boundary, then [x], whose
    length field is the one outside the buffer. *)
Lemma kads_loop_outside_chain (fuel : nat) (buf : buffer) (end_ : N) :
  forall it v0 v off,
    kads_loop fuel buf end_ it v0 = Some (ReadOutside v off) ->
    exists recs x,
      v = (v0 ++ recs ++ [x])%list /\
      kad_chain buf x it recs x /\
      x < end_ /\ kad_next buf x = None /\
      off = x + field_offset kad.layout "length".
Proof.
  induction fuel as [| fuel IH]; intros it v0 v off H.
  - destruct (N.lt_ge_cases it end_) as [Hlt | Hge].
    + rewrite kads_loop_out_of_fuel in H by assumption. discriminate.
    + rewrite kads_loop_exit in H by assumption. discriminate.
  - destruct (N.lt_ge_cases it end_) as [Hlt | Hge].
    + rewrite kads_loop_body in H by assumption.
      destruct (kad_next buf it) as [it'|] eqn:E.
      * apply IH in H. destruct H as (recs & x & -> & Hc & Hx & Hn & ->).
        exists (it :: recs), x. rewrite <- app_assoc.
        repeat split; try assumption.
        pose proof (kad_chain_final _ _ _ _ _ Hc) as [_ Hle].
        pose proof (kad_next_advance _ _ _ E).
        econstructor; [lia | exact E | exact Hc].
      * injection H as <- <-. exists [], it.
        repeat split; try assumption. constructor. lia.
    + rewrite kads_loop_exit in H by assumption. discriminate.
Qed.

(** The trace of a walk, in terms of the length fields: the first record
    pushed is the one at the cursor; each further record starts
    4 + ntohs(length) after the one before it; and the walk goes on until
    the record pushed last either ends at or past the boundary or has its
    length field outside the buffer. *)
Lemma kads_loop_trace (fuel : nat) (buf : buffer) (end_ : N) :
  forall it v0 r,
    kads_loop fuel buf end_ it v0 = Some r ->
    exists recs,
      yielded r = (v0 ++ recs)%list /\
      (it < end_ -> recs <> []) /\
      (forall h t, recs = h :: t -> h = it /\ it < end_) /\
      (forall pre a b post, recs = (pre ++ a :: b :: post)%list ->
         exists len, kad_length buf a = Some len /\ b = a + (4 + len)) /\
      (forall d, recs <> [] ->
         last recs d < end_ /\
         match r with
         | Returned _ =>
             exists len, kad_length buf (last recs d) = Some len /\
                         end_ <= last recs d + (4 + len)
         | ReadOutside _ off =>
             kad_length buf (last recs d) = None /\
             off = last recs d + field_offset kad.layout "length"
         end).
Proof.
  assert (Hnopair : forall (x : N) pre a b post,
             [x] = (pre ++ a :: b :: post)%list -> False).
  { intros x pre a b post Eq. destruct pre as [| p [| q pre]]; discriminate. }
  assert (Hexit : forall it v0 r,
             end_ <= it -> Some (Returned v0) = Some r ->
             exists recs,
               yielded r = (v0 ++ recs)%list /\
               (it < end_ -> recs <> []) /\
               (forall h t, recs = h :: t -> h = it /\ it < end_) /\
               (forall pre a b post, recs = (pre ++ a :: b :: post)%list ->
                  exists len, kad_length buf a = Some len /\ b = a + (4 + len)) /\
               (forall d, recs <> [] ->
                  last recs d < end_ /\
                  match r with
                  | Returned _ =>
                      exists len, kad_length buf (last recs d) = Some len /\
                                  end_ <= last recs d + (4 + len)
                  | ReadOutside _ off =>
                      kad_length buf (last recs d) = None /\
                      off = last recs d + field_offset kad.layout "length"
                  end)).
  { intros it v0 r Hge [= <-]. exists []. cbn [yielded]. rewrite app_nil_r.
    refine (conj eq_refl (conj _ (conj _ (conj _ _)))).
    - intros Hlt. lia.
    - intros h t Eq. discriminate.
    - intros pre a b post Eq. destruct pre; discriminate.
    - intros d Hne. congruence. }
  induction fuel as [| fuel IH]; intros it v0 r H.
  - destruct (N.lt_ge_cases it end_) as [Hlt | Hge].
    + rewrite kads_loop_out_of_fuel in H by assumption. discriminate.
    + rewrite kads_loop_exit in H by assumption. now apply (Hexit it).
  - destruct (N.lt_ge_cases it end_) as [Hlt | Hge];
      [|rewrite kads_loop_exit in H by assumption; now apply (Hexit it)].
    rewrite kads_loop_body in H by assumption.
    destruct (kad_next buf it) as [it'|] eqn:E.
    + pose proof (proj1 (kad_next_spec _ _ _) E) as (len & Hlen & Hit').
      destruct (N.lt_ge_cases it' end_) as [Hlt' | Hge'].
      * apply IH in H.
        destruct H as (recs & Hy & Hne & Hhd & Hadj & Hlast).
        specialize (Hne Hlt').
        destruct recs as [| h t]; [congruence|].
        destruct (Hhd h t eq_refl) as [-> _].
        exists (it :: it' :: t). rewrite Hy, <- app_assoc.
        refine (conj eq_refl (conj _ (conj _ (conj _ _)))).
        -- intros _. discriminate.
        -- intros h t' [= <- _]. now split.
        -- intros pre a b post Eq. destruct pre as [| p pre].
           ++ injection Eq as <- <- _. eauto.
           ++ injection Eq as _ Eq. now apply (Hadj pre a b post).
        -- intros d _.
           change (last (it :: it' :: t) d) with (last (it' :: t) d).
           apply Hlast. discriminate.
      * rewrite kads_loop_exit in H by assumption. injection H as <-.
        exists [it]. cbn [yielded last].
        refine (conj eq_refl (conj _ (conj _ (conj _ _)))).
        -- intros _. discriminate.
        -- intros h t [= <- _]. now split.
        -- intros pre a b post Eq. now elim (Hnopair _ _ _ _ _ Eq).
        -- intros d _. split; [exact Hlt|].
           exists len. split; [exact Hlen | lia].
    + injection H as <-. exists [it]. cbn [yielded last].
      refine (conj eq_refl (conj _ (conj _ (conj _ _)))).
      * intros _. discriminate.
      * intros h t [= <- _]. now split.
      * intros pre a b post Eq. now elim (Hnopair _ _ _ _ _ Eq).
      * intros d _. split; [exact Hlt|]. split; [|reflexivity].
        unfold kad_next in E. now destruct (kad_length buf it).
Qed.

(** A walk that starts below the boundary yields at least one record. *)
Lemma kads_loop_nonempty (fuel : nat) (buf : buffer) (end_ it : N)
    (v : list N) (r : walk_result) :
  it < end_ -> kads_loop fuel buf end_ it v = Some r -> yielded r <> [].
Proof.
  intros Hlt H. destruct fuel as [| fuel].
  - rewrite kads_loop_out_of_fuel in H by assumption. discriminate.
  - rewrite kads_loop_body in H by assumption.
    destruct (kad_next buf it).
    + apply kads_loop_prefix in H. destruct H as (recs & -> & _).
      destruct v; discriminate.
    + injection H as <-. destruct v; discriminate.
Qed.

(* ------------------------------------------------------------------ *)
(** ** Layouts *)

(** C5: the four structures have the sizes their [static_assert]s state:
    [page_des] 24 bytes, [page_sde] 20, [page_nbes] 16 and [sense_data] 18,
    and their members lie at the byte offsets and have the widths listed. *)
Theorem struct_sizes_and_offsets :
  sizeof page_des.layout = 24 /\
  sizeof page_sde.layout = 20 /\
  sizeof page_nbes.layout = 16 /\
  sizeof sense_data.layout = 18 /\
  member_table 0 page_des.layout =
    [ ("page_code", 0, 2); ("length", 2, 2); ("scope", 4, 1);
      ("encryption_mode", 5, 1); ("decryption_mode", 6, 1);
      ("algorithm_index", 7, 1); ("key_instance_counter", 8, 4);
      ("flags", 12, 1); ("kad_format", 13, 1); ("asdk_count", 14, 2);
      ("reserved", 16, 8); ("kads", 24, 0) ] /\
  member_table 0 page_sde.layout =
    [ ("page_code", 0, 2); ("length", 2, 2); ("control", 4, 1);
      ("flags", 5, 1); ("encryption_mode", 6, 1); ("decryption_mode", 7, 1);
      ("algorithm_index", 8, 1); ("key_format", 9, 1); ("kad_format", 10, 1);
      ("reserved", 11, 7); ("key_length", 18, 2); ("key", 20, 0) ] /\
  member_table 0 page_nbes.layout =
    [ ("page_code", 0, 2); ("length", 2, 2);
      ("logical_object_number", 4, 8); ("status", 12, 1);
      ("algorithm_index", 13, 1); ("flags", 14, 1); ("kad_format", 15, 1);
      ("kads", 16, 0) ] /\
  member_table 0 sense_data.layout =
    [ ("response", 0, 1); ("reserved", 1, 1); ("flags", 2, 1);
      ("information", 3, 4); ("additional_sense_length", 7, 1);
      ("command_specific_information", 8, 4);
      ("additional_sense_code", 12, 1); ("additional_sense_qualifier", 13, 1);
      ("field_replaceable_unit_code", 14, 1); ("sense_key_specific", 15, 3);
      ("additional_sense_bytes", 18, 0) ].
Proof. repeat split. Qed.

(** C4, as stated, fails: the region of [page_des] after the 4-byte header
    is not 24 bytes, its records do not begin at offset 28, and the walker
    finds the first record of a page at offset 24. *)
Lemma des_fixed_region_counterexample :
  sizeof page_des.layout - sizeof page_header.layout <> 24 /\
  offsetof page_des.layout "kads" <> Some 28 /\
  read_page_kads max_iterations page_des.layout des_two_kads
    = Some (Returned [24; 30]).
Proof. repeat split; (discriminate || vm_compute; reflexivity). Qed.

(** C4, amended: [page_des] is 24 bytes including its 4-byte header, so
    the fixed region after the header is 20 bytes and the trailing records
    begin at offset 24; when the walker returns records for a device
    encryption status page, the first is the one at offset 24. *)
Theorem des_fixed_region :
  sizeof page_des.layout = 24 /\
  sizeof page_des.layout - sizeof page_header.layout = 20 /\
  offsetof page_des.layout "kads" = Some 24 /\
  forall fuel buf v,
    read_page_kads fuel page_des.layout buf = Some (Returned v) ->
    v = [] \/ hd_error v = Some 24.
Proof.
  repeat split.
  intros fuel buf v H. unfold read_page_kads in H.
  destruct (page_end buf) as [end_|]; [|discriminate].
  apply kads_loop_chain in H. destruct H as (recs & final & Heq & Hc).
  simpl in Heq. subst recs.
  destruct v as [| r rest]; [now left | right].
  now rewrite (kad_chain_head _ _ _ _ _ Hc r rest eq_refl).
Qed.

Lemma des_fixed_region_witness :
  [24; 30] = [] \/ hd_error [24; 30] = Some 24.
Proof.
  exact (proj2 (proj2 (proj2 des_fixed_region)) 5%nat des_two_kads [24; 30] eq_refl).
Defined.

(* ------------------------------------------------------------------ *)
(** ** Bit fields of the set data encryption page *)

(** C9: in [page_sde], raw decryption mode control is the two-bit field at
    bits 4 and 5 of the flags byte and every [sde_rdmc] enumerator lies
    within it; the three clear-key flags are the single bits 2, 1 and 0,
    disjoint from that field and from one another; in the control byte,
    lock (bit 0) and scope (bits 5 to 7) are disjoint. *)
Theorem sde_bit_fields :
  bits_of page_sde.flags_rdmc_mask = [4; 5] /\
  Forall (fun r => within (u8 r) page_sde.flags_rdmc_mask) sde_rdmc.enumerators /\
  bits_of page_sde.flags_ckod_mask = [2] /\
  bits_of page_sde.flags_ckorp_mask = [1] /\
  bits_of page_sde.flags_ckorl_mask = [0] /\
  disjoint page_sde.flags_ckod_mask page_sde.flags_rdmc_mask /\
  disjoint page_sde.flags_ckorp_mask page_sde.flags_rdmc_mask /\
  disjoint page_sde.flags_ckorl_mask page_sde.flags_rdmc_mask /\
  disjoint page_sde.flags_ckod_mask page_sde.flags_ckorp_mask /\
  disjoint page_sde.flags_ckod_mask page_sde.flags_ckorl_mask /\
  disjoint page_sde.flags_ckorp_mask page_sde.flags_ckorl_mask /\
  bits_of page_sde.control_lock_mask = [0] /\
  bits_of page_sde.control_scope_mask = [5; 6; 7] /\
  disjoint page_sde.control_lock_mask page_sde.control_scope_mask /\
  Forall (fun m => m < 256)
    [ page_sde.flags_rdmc_mask; page_sde.flags_ckod_mask;
      page_sde.flags_ckorp_mask; page_sde.flags_ckorl_mask;
      page_sde.control_lock_mask; page_sde.control_scope_mask ].
Proof.
  repeat match goal with |- _ /\ _ => split end;
    try reflexivity; repeat constructor.
Qed.

(* ------------------------------------------------------------------ *)
(** ** Stream operators *)

Lemma byte_eqb_neq (a b : byte) : a <> b -> Byte.eqb a b = false.
Proof.
  intros H. destruct (Byte.eqb a b) eqn:E; [|reflexivity].
  apply Byte.byte_dec_bl in E. contradiction.
Qed.

(** C10: the two stream operators are total. Every [encrypt_mode] value
    other than [off] and [external], named or not, is written as "on";
    every [decrypt_mode] value other than [off], [raw] and [on] is written
    as "mixed"; for any byte the operator appends one of its labels. *)
Theorem mode_output_total :
  (forall (os : ostream) (m : encrypt_mode.t),
      m <> encrypt_mode.off -> m <> encrypt_mode.external ->
      put_encrypt_mode os m = os ++ "on") /\
  (forall (os : ostream) (m : decrypt_mode.t),
      m <> decrypt_mode.off -> m <> decrypt_mode.raw -> m <> decrypt_mode.on ->
      put_decrypt_mode os m = os ++ "mixed") /\
  (forall (os : ostream) (m : encrypt_mode.t),
      exists label, In label ["off"; "external"; "on"] /\
                    put_encrypt_mode os m = os ++ label) /\
  (forall (os : ostream) (m : decrypt_mode.t),
      exists label, In label ["off"; "raw"; "on"; "mixed"] /\
                    put_decrypt_mode os m = os ++ label).
Proof.
  repeat match goal with |- _ /\ _ => split end.
  - intros os m H0 H1. unfold put_encrypt_mode.
    now rewrite (byte_eqb_neq _ _ H0), (byte_eqb_neq _ _ H1).
  - intros os m H0 H1 H2. unfold put_decrypt_mode.
    now rewrite (byte_eqb_neq _ _ H0), (byte_eqb_neq _ _ H1), (byte_eqb_neq _ _ H2).
  - intros os m. unfold put_encrypt_mode.
    destruct (Byte.eqb m encrypt_mode.off); [|destruct (Byte.eqb m encrypt_mode.external)];
      eexists; (split; [|reflexivity]); simpl; auto.
  - intros os m. unfold put_decrypt_mode.
    destruct (Byte.eqb m decrypt_mode.off);
      [|destruct (Byte.eqb m decrypt_mode.raw);
        [|destruct (Byte.eqb m decrypt_mode.on)]];
      eexists; (split; [|reflexivity]); simpl; auto 6.
Qed.

Lemma mode_output_total_witness :
  put_encrypt_mode "mode: " xff = "mode: on" /\
  put_decrypt_mode "mode: " x07 = "mode: mixed".
Proof.
  split.
  - apply (proj1 mode_output_total "mode: " xff); discriminate.
  - apply (proj1 (proj2 mode_output_total) "mode: " x07); discriminate.
Defined.

(* ------------------------------------------------------------------ *)
(** ** The walker *)

(** C6: a page with no trailing record, one whose declared length plus the
    4-byte header equals [sizeof(Page)], gives the empty vector; the loop
    body never runs, so no fuel is needed. *)
Theorem read_page_kads_no_records :
  forall (fuel : nat) (Page : struct_def) (buf : buffer) (len : N),
    page_length buf = Some len ->
    len + 4 = sizeof Page ->
    read_page_kads fuel Page buf = Some (Returned []).
Proof.
  intros fuel Page buf len Hlen Hsz.
  unfold read_page_kads, page_end. rewrite Hlen, sizeof_page_header.
  apply kads_loop_exit. lia.
Qed.

Lemma read_page_kads_no_records_witness :
  read_page_kads 0 page_des.layout des_no_kads = Some (Returned []).
Proof.
  apply (read_page_kads_no_records 0 page_des.layout des_no_kads 20);
    reflexivity.
Defined.

(** C7: a record is a 4-byte header (type at offset 0, flags at 1, the
    network-order length at 2 and 3) followed by [length] descriptor bytes
    from offset 4, so it occupies 4 + length bytes. The walker advances by
    exactly that much: on every page whose length field can be read, the
    walk with enough fuel ends; if the fixed region ends below the
    boundary the first record yielded is the one at [sizeof(Page)]; each
    further record yielded starts exactly 4 + ntohs(length) after the
    record yielded before it; and the walk does not stop early: when it
    returns, the cursor 4 + ntohs(length) past the last record is at or
    past the boundary, and otherwise the length field of the last record
    is outside the buffer. *)
Theorem kad_size_and_advance :
  member_table 0 kad.layout =
    [ ("type", 0, 1); ("flags", 1, 1); ("length", 2, 2); ("descriptor", 4, 0) ] /\
  sizeof kad.layout = 4 /\
  (forall buf elem len,
      kad_length buf elem = Some len -> kad_end buf elem = Some (elem + (4 + len))) /\
  (forall (Page : struct_def) (buf : buffer) (end_ : N),
      page_end buf = Some end_ ->
      exists r,
        read_page_kads max_iterations Page buf = Some r /\
        (sizeof Page < end_ -> yielded r <> []) /\
        (forall h t, yielded r = h :: t -> h = sizeof Page /\ sizeof Page < end_) /\
        (forall pre a b post, yielded r = (pre ++ a :: b :: post)%list ->
           exists len, kad_length buf a = Some len /\ b = a + (4 + len)) /\
        (forall d, yielded r <> [] ->
           last (yielded r) d < end_ /\
           match r with
           | Returned _ =>
               exists len, kad_length buf (last (yielded r) d) = Some len /\
                           end_ <= last (yielded r) d + (4 + len)
           | ReadOutside _ off =>
               kad_length buf (last (yielded r) d) = None /\
               off = last (yielded r) d + field_offset kad.layout "length"
           end)).
Proof.
  repeat match goal with |- _ /\ _ => split end; try reflexivity.
  - intros buf elem len H. apply kad_next_spec. eauto.
  - intros Page buf end_ E. pose proof (page_end_bound _ _ E) as Hb.
    unfold read_page_kads. rewrite E.
    destruct (kads_loop_total max_iterations buf end_ (sizeof Page) [])
      as [r Hr]; [rewrite max_iterations_N; lia|].
    exists r. split; [exact Hr|].
    apply kads_loop_trace in Hr. destruct Hr as (recs & Hy & Hrest).
    simpl in Hy. rewrite Hy. exact Hrest.
Qed.

Lemma kad_size_and_advance_witness :
  exists r,
    read_page_kads max_iterations page_des.layout des_two_kads = Some r /\
    (sizeof page_des.layout < 34 -> yielded r <> []) /\
    (forall h t, yielded r = h :: t ->
                 h = sizeof page_des.layout /\ sizeof page_des.layout < 34) /\
    (forall pre a b post, yielded r = (pre ++ a :: b :: post)%list ->
       exists len, kad_length des_two_kads a = Some len /\ b = a + (4 + len)) /\
    (forall d, yielded r <> [] ->
       last (yielded r) d < 34 /\
       match r with
       | Returned _ =>
           exists len, kad_length des_two_kads (last (yielded r) d) = Some len /\
                       34 <= last (yielded r) d + (4 + len)
       | ReadOutside _ off =>
           kad_length des_two_kads (last (yielded r) d) = None /\
           off = last (yielded r) d + field_offset kad.layout "length"
       end).
Proof.
  exact (proj2 (proj2 (proj2 kad_size_and_advance))
           page_des.layout des_two_kads 34 eq_refl).
Defined.

(** C8, as stated, fails: the walker does not return for every page. The
    page [des_exact_fit] fills a 26-byte buffer exactly and declares the
    boundary 26; the cursor 24 is below the boundary, so the walker pushes
    the record at 24 and loads its length field at offsets 26 and 27,
    outside the buffer; with no amount of fuel does it return a vector. *)
Lemma read_page_kads_no_return_counterexample :
  buflen des_exact_fit = 26 /\
  page_end des_exact_fit = Some 26 /\
  read_page_kads max_iterations page_des.layout des_exact_fit
    = Some (ReadOutside [24] 26) /\
  (forall fuel v,
      read_page_kads fuel page_des.layout des_exact_fit <> Some (Returned v)).
Proof.
  repeat split; try (vm_compute; reflexivity).
  intros [| fuel] v; vm_compute; discriminate.
Qed.

(** C8, amended: the loop of the walker stops on every page. Whatever the
    declared page length and the length fields are, 16385 runs of the loop
    body are enough, because a run moves the cursor at least 4 bytes
    towards a boundary that is at most 65539; more fuel gives the same
    result. The walk ends in one of two ways: the walker returns a vector
    of at most 16385 records, or it loads a length field from outside the
    buffer. It returns whenever the buffer reaches at least 3 bytes past
    the declared boundary. *)
Theorem read_page_kads_terminates :
  forall (Page : struct_def) (buf : buffer),
    (forall it it', kad_next buf it = Some it' -> it + 4 <= it') /\
    exists r,
      read_page_kads max_iterations Page buf = Some r /\
      (List.length (yielded r) <= max_iterations)%nat /\
      (forall fuel, (max_iterations <= fuel)%nat ->
                    read_page_kads fuel Page buf = Some r) /\
      (forall end_, page_end buf = Some end_ -> end_ + 3 <= buflen buf ->
                    exists v, r = Returned v) /\
      (forall v off, r = ReadOutside v off -> buflen buf < off + 2).
Proof.
  intros Page buf. split.
  { intros it it' H. now apply kad_next_advance in H. }
  unfold read_page_kads.
  destruct (page_end buf) as [end_|] eqn:E.
  - apply page_end_bound in E.
    destruct (kads_loop_total max_iterations buf end_ (sizeof Page) [])
      as [r Hr]; [rewrite max_iterations_N; lia|].
    exists r. repeat split.
    + exact Hr.
    + apply kads_loop_prefix in Hr. destruct Hr as (recs & -> & Hn).
      simpl. exact Hn.
    + intros fuel Hf. eapply kads_loop_fuel_mono; eassumption.
    + intros end' [= <-] Hb. eapply kads_loop_returns; eassumption.
    + intros v off ->. now apply kads_loop_outside in Hr.
  - eexists. repeat split.
    + simpl. lia.
    + intros end_ H. discriminate.
    + intros v off [= <- <-]. unfold page_end, page_length in E.
      destruct (load_ntohs buf (field_offset page_header.layout "length")) eqn:L;
        [discriminate|].
      now apply load_ntohs_outside in L.
Qed.

Lemma read_page_kads_terminates_witness :
  exists r,
    read_page_kads max_iterations page_des.layout des_overrun = Some r /\
    (List.length (yielded r) <= max_iterations)%nat /\
    (forall fuel, (max_iterations <= fuel)%nat ->
                  read_page_kads fuel page_des.layout des_overrun = Some r) /\
    (forall end_, page_end des_overrun = Some end_ ->
                  end_ + 3 <= buflen des_overrun -> exists v, r = Returned v) /\
    (forall v off, r = ReadOutside v off -> buflen des_overrun < off + 2).
Proof.
  exact (proj2 (read_page_kads_terminates page_des.layout des_overrun)).
Defined.

(** C1, as stated, fails. The page [des_overrun] declares the boundary 32
    and its record at offset 24 declares 100 descriptor bytes: the walker
    returns normally and its vector holds that record, which ends at 128.
    The page [des_short_tail] declares the boundary 26: the walker reads
    the header of a record at offset 24 although only 2 bytes remain
    before the boundary, and returns it. *)
Lemma read_page_kads_overrun_counterexample :
  page_end des_overrun = Some 32 /\
  read_page_kads max_iterations page_des.layout des_overrun
    = Some (Returned [24]) /\
  kad_end des_overrun 24 = Some 128 /\
  page_end des_short_tail = Some 26 /\
  read_page_kads max_iterations page_des.layout des_short_tail
    = Some (Returned [24]).
Proof. repeat split; vm_compute; reflexivity. Qed.

(** C1, amended: the walker has no error result and does not compare a
    record's length field with the boundary. On every page whose length
    field can be read, the walk with enough fuel ends. Starting at
    [sizeof(Page)] it yields the record at the cursor whenever the cursor
    is strictly below the declared boundary, so every record yielded
    starts strictly below the boundary and every record yielded but the
    last also ends strictly below it. Either the walker returns the chain
    of records from [sizeof(Page)], having stopped at the first cursor at
    or past the boundary, which is where the last record ends, so that
    record may overrun the boundary; or the length field of the last
    record yielded lies outside the buffer. The walker returns whenever
    the buffer reaches at least 3 bytes past the boundary. *)
Theorem read_page_kads_boundary :
  forall (Page : struct_def) (buf : buffer) (end_ : N),
    page_end buf = Some end_ ->
    exists r,
      read_page_kads max_iterations Page buf = Some r /\
      (sizeof Page < end_ -> yielded r <> []) /\
      (forall x, In x (yielded r) -> sizeof Page <= x /\ x < end_) /\
      (forall x, In x (removelast (yielded r)) ->
                 exists e, kad_end buf x = Some e /\ e < end_) /\
      match r with
      | Returned v =>
          exists final,
            kad_chain buf end_ (sizeof Page) v final /\
            end_ <= final /\
            (forall d, v <> [] -> kad_end buf (last v d) = Some final)
      | ReadOutside v off =>
          exists recs x,
            v = (recs ++ [x])%list /\
            kad_chain buf x (sizeof Page) recs x /\
            kad_end buf x = None /\
            off = x + field_offset kad.layout "length" /\
            buflen buf < off + 2
      end /\
      (end_ + 3 <= buflen buf -> exists v, r = Returned v).
Proof.
  intros Page buf end_ E. pose proof (page_end_bound _ _ E) as Hb.
  unfold read_page_kads. rewrite E.
  destruct (kads_loop_total max_iterations buf end_ (sizeof Page) [])
    as [r Hr]; [rewrite max_iterations_N; lia|].
  exists r. split; [exact Hr|].
  split; [intros Hlt; eapply kads_loop_nonempty; eassumption|].
  assert (Hret : end_ + 3 <= buflen buf -> exists v, r = Returned v)
    by (intros Hin; eapply kads_loop_returns; eassumption).
  destruct r as [v | v off]; cbn [yielded].
  - apply kads_loop_chain in Hr. destruct Hr as (recs & final & Heq & Hc).
    simpl in Heq. subst recs.
    split; [exact (kad_chain_starts _ _ _ _ _ Hc)|].
    split; [exact (kad_chain_inner _ _ _ _ _ Hc)|].
    split; [|exact Hret].
    exists final. split; [exact Hc|].
    split; [now apply kad_chain_final in Hc|].
    intros d Hne. now apply (kad_chain_last _ _ _ _ _ Hc).
  - pose proof (kads_loop_outside _ _ _ _ _ _ _ Hr) as [Hout _].
    apply kads_loop_outside_chain in Hr.
    destruct Hr as (recs & x & Heq & Hc & Hx & Hn & Hoff).
    simpl in Heq. subst v.
    pose proof (kad_chain_final _ _ _ _ _ Hc) as [_ Hle].
    split; [|split; [|split; [|exact Hret]]].
    + intros y Hin. apply in_app_or in Hin. destruct Hin as [Hin | [<- | []]].
      * pose proof (kad_chain_starts _ _ _ _ _ Hc y Hin). lia.
      * lia.
    + intros y Hin. rewrite removelast_last in Hin.
      destruct (kad_chain_ends _ _ _ _ _ Hc y Hin) as (e & He & Hfin).
      exists e. split; [exact He | lia].
    + exists recs, x. repeat split; assumption.
Qed.

Lemma read_page_kads_boundary_witness :
  exists r,
    read_page_kads max_iterations page_des.layout des_overrun = Some r /\
    (sizeof page_des.layout < 32 -> yielded r <> []) /\
    (forall x, In x (yielded r) -> sizeof page_des.layout <= x /\ x < 32) /\
    (forall x, In x (removelast (yielded r)) ->
               exists e, kad_end des_overrun x = Some e /\ e < 32) /\
    match r with
    | Returned v =>
        exists final,
          kad_chain des_overrun 32 (sizeof page_des.layout) v final /\
          32 <= final /\
          (forall d, v <> [] -> kad_end des_overrun (last v d) = Some final)
    | ReadOutside v off =>
        exists recs x,
          v = (recs ++ [x])%list /\
          kad_chain des_overrun x (sizeof page_des.layout) recs x /\
          kad_end des_overrun x = None /\
          off = x + field_offset kad.layout "length" /\
          buflen des_overrun < off + 2
    end /\
    (32 + 3 <= buflen des_overrun -> exists v, r = Returned v).
Proof.
  exact (read_page_kads_boundary page_des.layout des_overrun 32 eq_refl).
Defined.

(** C2, as stated, fails. The 28-byte buffer [des_declared_past_buffer]
    holds a page that declares the boundary 29: the walker returns
    normally with the record at offset 24. The 28-byte buffer
    [des_declared_huge] holds a page that declares the boundary 65539: the
    walker pushes the records at offsets 24 and 28 and loads the length
    field at offset 30, outside the buffer. *)
Lemma declared_length_past_buffer_counterexample :
  buflen des_declared_past_buffer = 28 /\
  page_end des_declared_past_buffer = Some 29 /\
  read_page_kads max_iterations page_des.layout des_declared_past_buffer
    = Some (Returned [24]) /\
  buflen des_declared_huge = 28 /\
  page_end des_declared_huge = Some 65539 /\
  read_page_kads max_iterations page_des.layout des_declared_huge
    = Some (ReadOutside [24; 28] 30).
Proof. repeat split; vm_compute; reflexivity. Qed.

(** C2, amended: the walker's authority is the page's declared length
    alone; the buffer's actual length plays no part and there is no error
    result. For a page whose fixed region lies in the buffer and whose
    declared boundary lies past the buffer's end, the walker yields at
    least one record, all below the declared boundary, and either returns
    its vector after walking to a cursor at or past the declared boundary,
    hence past the end of the buffer, or loads a record's length field
    from outside the buffer. *)
Theorem read_page_kads_declared_length_only :
  forall (Page : struct_def) (buf : buffer) (end_ : N),
    page_end buf = Some end_ ->
    sizeof Page <= buflen buf ->
    buflen buf < end_ ->
    exists r,
      read_page_kads max_iterations Page buf = Some r /\
      yielded r <> [] /\
      match r with
      | Returned v =>
          exists final, kad_chain buf end_ (sizeof Page) v final /\
                        buflen buf < final
      | ReadOutside v off => buflen buf < off + 2 /\ off < end_ + 2
      end.
Proof.
  intros Page buf end_ E Hfix Hlen.
  pose proof (page_end_bound _ _ E) as Hb.
  unfold read_page_kads. rewrite E.
  destruct (kads_loop_total max_iterations buf end_ (sizeof Page) [])
    as [r Hr]; [rewrite max_iterations_N; lia|].
  exists r. split; [exact Hr|]. split.
  - destruct max_iterations as [| fuel] eqn:Ef.
    + rewrite kads_loop_out_of_fuel in Hr by lia. discriminate.
    + rewrite kads_loop_body in Hr by lia.
      destruct (kad_next buf (sizeof Page)).
      * apply kads_loop_prefix in Hr. destruct Hr as (recs & -> & _).
        simpl. discriminate.
      * injection Hr as <-. simpl. discriminate.
  - destruct r as [v | v off].
    + apply kads_loop_chain in Hr. destruct Hr as (recs & final & Heq & Hc).
      simpl in Heq. subst recs. exists final. split; [exact Hc|].
      apply kad_chain_final in Hc. lia.
    + eapply kads_loop_outside; eassumption.
Qed.

Lemma read_page_kads_declared_length_only_witness :
  exists r,
    read_page_kads max_iterations page_des.layout des_declared_past_buffer
      = Some r /\
    yielded r <> [] /\
    match r with
    | Returned v =>
        exists final,
          kad_chain des_declared_past_buffer 29 (sizeof page_des.layout) v final /\
          buflen des_declared_past_buffer < final
    | ReadOutside v off =>
        buflen des_declared_past_buffer < off + 2 /\ off < 29 + 2
    end.
Proof.
  apply (read_page_kads_declared_length_only
           page_des.layout des_declared_past_buffer 29).
  - reflexivity.
  - vm_compute. discriminate.
  - vm_compute. reflexivity.
Defined.

(* ------------------------------------------------------------------ *)
(** ** Building and decoding a set data encryption page *)

Lemma ntohs_htons (n : N) :
  n <= 65535 ->
  load_ntohs (htons n) 0 = Some n.
Proof.
  intros H. unfold htons, load_ntohs, load8. simpl. f_equal.
  unfold ntohs. rewrite !u8_byte_of_N.
  rewrite (N.mod_small n 65536) by lia.
  assert (n / 256 < 256) by (apply N.Div0.div_lt_upper_bound; lia).
  rewrite (N.mod_small (n / 256) 256) by assumption.
  rewrite N.Div0.mod_mod.
  symmetry. apply N.div_mod. discriminate.
Qed.

Lemma len_N_app (a b : list byte) : len_N (a ++ b)%list = len_N a + len_N b.
Proof. unfold len_N. rewrite length_app. lia. Qed.

Lemma load8_app_l (pre post : list byte) (off : N) :
  off < len_N pre -> load8 (pre ++ post)%list off = load8 pre off.
Proof.
  unfold load8, len_N. intros H. apply nth_error_app1. lia.
Qed.

Lemma load8_app_r (pre post : list byte) (off : N) :
  load8 (pre ++ post)%list (len_N pre + off) = load8 post off.
Proof.
  unfold load8, len_N. rewrite nth_error_app2 by lia. f_equal. lia.
Qed.

Lemma load_ntohs_app_l (pre post : list byte) (off : N) :
  off + 1 < len_N pre ->
  load_ntohs (pre ++ post)%list off = load_ntohs pre off.
Proof.
  intros H. unfold load_ntohs. now rewrite !load8_app_l by lia.
Qed.

Lemma load_ntohs_app_r (pre post : list byte) (off : N) :
  load_ntohs (pre ++ post)%list (len_N pre + off) = load_ntohs post off.
Proof.
  unfold load_ntohs. rewrite <- N.add_assoc. now rewrite !load8_app_r.
Qed.

Lemma slice_app_r (pre post : list byte) (off n : N) :
  slice (pre ++ post)%list (len_N pre + off) n = slice post off n.
Proof.
  unfold slice, len_N. f_equal.
  rewrite skipn_app.
  replace (N.to_nat (N.of_nat (List.length pre) + off))
    with (List.length pre + N.to_nat off)%nat by lia.
  rewrite skipn_all2 by lia. simpl. f_equal. lia.
Qed.

Lemma slice_prefix (l post : list byte) :
  slice (l ++ post)%list 0 (len_N l) = l.
Proof.
  unfold slice, len_N. simpl. rewrite Nat2N.id.
  rewrite firstn_app, firstn_all, Nat.sub_diag. simpl. apply app_nil_r.
Qed.

Lemma slice_all (l : list byte) : slice l 0 (len_N l) = l.
Proof. rewrite <- (app_nil_r l) at 1. apply slice_prefix. Qed.

Lemma len_N_key_name_kad (name : list byte) :
  len_N (key_name_kad name) = 4 + len_N name.
Proof. unfold key_name_kad, htons, len_N. cbn [app List.length]. lia. Qed.

Lemma ntohs_htons_bytes (n : N) :
  n <= 65535 ->
  ntohs (byte_of_N ((n mod 65536) / 256)) (byte_of_N (n mod 256)) = n.
Proof.
  intros H. pose proof (ntohs_htons n H) as E.
  unfold htons, load_ntohs, load8 in E. simpl in E. now injection E.
Qed.

(** What the decoder reads back from a buffer that starts with a fixed
    region: the members at their offsets. *)
Section FixedRegion.

Variables (code : N) (control key_format : byte).
Variables (length : N) (flags : byte).
Variables (enc dec alg kf : byte) (klen : N).
Variable rest : list byte.

Local Notation "'fixed'" :=
  (sde_fixed_region code control key_format length flags enc dec alg kf klen).

Lemma sde_fixed_region_len : len_N fixed = 20.
Proof. reflexivity. Qed.

Lemma sde_fixed_region_buflen : buflen (fixed ++ rest)%list = 20 + len_N rest.
Proof. change buflen with len_N. now rewrite len_N_app, sde_fixed_region_len. Qed.

Lemma sde_fixed_region_modes :
  load8 (fixed ++ rest)%list 6 = Some enc /\
  load8 (fixed ++ rest)%list 7 = Some dec /\
  load8 (fixed ++ rest)%list 8 = Some alg.
Proof. repeat split. Qed.

Lemma sde_fixed_region_code :
  code <= 65535 -> load_ntohs (fixed ++ rest)%list 0 = Some code.
Proof.
  intros H.
  change (load_ntohs (fixed ++ rest)%list 0)
    with (Some (ntohs (byte_of_N ((code mod 65536) / 256)) (byte_of_N (code mod 256)))).
  now rewrite ntohs_htons_bytes.
Qed.

Lemma sde_fixed_region_end :
  4 <= length -> length - 4 <= 65535 ->
  page_end (fixed ++ rest)%list = Some length.
Proof.
  intros H4 H.
  change (page_end (fixed ++ rest)%list)
    with (Some (ntohs (byte_of_N (((length - 4) mod 65536) / 256))
                      (byte_of_N ((length - 4) mod 256)) + 4)).
  rewrite ntohs_htons_bytes by assumption. f_equal. lia.
Qed.

Lemma sde_fixed_region_key_length :
  klen <= 65535 -> load_ntohs (fixed ++ rest)%list 18 = Some klen.
Proof.
  intros H.
  change (load_ntohs (fixed ++ rest)%list 18)
    with (Some (ntohs (byte_of_N ((klen mod 65536) / 256)) (byte_of_N (klen mod 256)))).
  now rewrite ntohs_htons_bytes.
Qed.

Lemma sde_fixed_region_slice (off n : N) :
  slice (fixed ++ rest)%list (20 + off) n = slice rest off n.
Proof. rewrite <- sde_fixed_region_len. apply slice_app_r. Qed.

Lemma sde_fixed_region_load_ntohs (off : N) :
  load_ntohs (fixed ++ rest)%list (20 + off) = load_ntohs rest off.
Proof. rewrite <- sde_fixed_region_len. apply load_ntohs_app_r. Qed.

End FixedRegion.

Lemma key_name_kad_length (key name : list byte) :
  len_N name <= 65535 ->
  load_ntohs (key ++ key_name_kad name)%list (len_N key + 2) = Some (len_N name).
Proof.
  intros H. rewrite load_ntohs_app_r.
  change (load_ntohs (key_name_kad name) 2)
    with (Some (ntohs (byte_of_N ((len_N name mod 65536) / 256))
                      (byte_of_N (len_N name mod 256)))).
  now rewrite ntohs_htons_bytes.
Qed.

Lemma key_name_kad_descriptor (key name : list byte) :
  slice (key ++ key_name_kad name)%list (len_N key + 4) (len_N name) = name.
Proof.
  rewrite slice_app_r.
  change (slice (key_name_kad name) 4 (len_N name)) with (slice name 0 (len_N name)).
  apply slice_all.
Qed.

(** Decide the comparisons of offsets the decoder makes. *)
Ltac settle_tests :=
  repeat match goal with
  | |- context [N.ltb ?a ?b] =>
      first [ replace (N.ltb a b) with false by (symmetry; apply N.ltb_ge; lia)
            | replace (N.ltb a b) with true by (symmetry; apply N.ltb_lt; lia) ]
  | |- context [N.eqb ?a ?b] =>
      first [ replace (N.eqb a b) with false by (symmetry; apply N.eqb_neq; lia)
            | replace (N.eqb a b) with true by (symmetry; apply N.eqb_eq; lia) ]
  end.

(** C3: building a set data encryption page and decoding it gives back
    what was supplied. For a page code that fits 16 bits and parameters
    whose page length fits its 16-bit field, the decoder accepts the
    buffer [make_sde] builds and reads the same encryption mode,
    decryption mode, algorithm index, key bytes and key name (none when
    none was given); the key may be empty. *)
Theorem make_sde_roundtrip :
  forall (sde_page_code : N) (control key_format : byte) (flags_base : N)
         (enc_mode : encrypt_mode.t) (dec_mode : decrypt_mode.t)
         (algorithm_index : byte) (key : list byte)
         (key_name : option (list byte)) (kad_format : kadf.t)
         (rdmc : sde_rdmc.t) (ckod : bool),
    sde_page_code <= 65535 ->
    valid_sde_params key key_name ->
    parse_sde sde_page_code
      (make_sde sde_page_code control key_format flags_base enc_mode dec_mode
                algorithm_index key key_name kad_format rdmc ckod)
    = Some {| view_encryption_mode := enc_mode;
              view_decryption_mode := dec_mode;
              view_algorithm_index := algorithm_index;
              view_key := key;
              view_key_name := key_name |}.
Proof.
  intros code control key_format flags_base enc dec alg key key_name kadf
         rdmc ckod Hcode Hvalid.
  unfold valid_sde_params in Hvalid. unfold make_sde, parse_sde.
  change (sizeof page_sde.layout) with 20 in *.
  change (sizeof page_header.layout) with 4 in *.
  change (sizeof kad.layout) with 4.
  change (field_offset page_sde.layout "page_code") with 0.
  change (field_offset page_sde.layout "encryption_mode") with 6.
  change (field_offset page_sde.layout "decryption_mode") with 7.
  change (field_offset page_sde.layout "algorithm_index") with 8.
  change (field_offset page_sde.layout "key_length") with 18.
  change (field_offset page_sde.layout "key") with 20.
  set (flags := sde_flags flags_base rdmc ckod).
  assert (Hkads : key_name_kads key_name = [] /\ key_name = None \/
                  exists name, key_name = Some name /\
                               len_N (key_name_kads key_name) = 4 + len_N name).
  { destruct key_name as [name|]; [right | left; split; reflexivity].
    exists name. split; [reflexivity | apply len_N_key_name_kad]. }
  set (kads := key_name_kads key_name) in *.
  rewrite sde_fixed_region_buflen, len_N_app.
  rewrite sde_fixed_region_code by assumption.
  rewrite sde_fixed_region_end by lia.
  destruct (sde_fixed_region_modes code control key_format
              (20 + len_N key + len_N kads) flags
              enc dec alg kadf (len_N key) (key ++ kads)%list) as (-> & -> & ->).
  rewrite sde_fixed_region_key_length by lia.
  rewrite N.eqb_refl. cbn [negb].
  replace (slice _ 20 (len_N key)) with key
    by (rewrite <- (N.add_0_r 20), sde_fixed_region_slice; symmetry; apply slice_prefix).
  destruct Hkads as [[Hnil ->] | (name & -> & Hlen)].
  - assert (Hz : len_N kads = 0) by now rewrite Hnil.
    settle_tests. reflexivity.
  - settle_tests.
    unfold kad_next, kad_length.
    change (field_offset kad.layout "length") with 2.
    change (sizeof kad.layout) with 4.
    rewrite <- !N.add_assoc, sde_fixed_region_load_ntohs.
    subst kads. cbn [key_name_kads] in *.
    rewrite key_name_kad_length by lia.
    settle_tests.
    rewrite sde_fixed_region_slice.
    match goal with
    | |- context [slice _ _ ?n] => replace n with (len_N name) by lia
    end.
    now rewrite key_name_kad_descriptor.
Qed.

Lemma make_sde_roundtrip_witness :
  parse_sde 16
    (make_sde 16 x40 x00 64 encrypt_mode.on decrypt_mode.mixed x01
              [xaa; xbb] (Some (name_bytes "k1")) kadf.ascii_key_name
              sde_rdmc.enabled true)
  = Some {| view_encryption_mode := encrypt_mode.on;
            view_decryption_mode := decrypt_mode.mixed;
            view_algorithm_index := x01;
            view_key := [xaa; xbb];
            view_key_name := Some (name_bytes "k1") |}.
Proof.
  apply make_sde_roundtrip.
  - vm_compute. discriminate.
  - vm_compute. discriminate.
Defined.

(* ------------------------------------------------------------------ *)
(** * Further properties of the header *)

(** ** The walker on well-formed pages *)

Lemma load_ntohs_some_inside (buf : buffer) (off n : N) :
  load_ntohs buf off = Some n -> off + 2 <= buflen buf.
Proof.
  unfold load_ntohs, load8, buflen. intros H.
  destruct (nth_error buf (N.to_nat (off + 1))) eqn:E.
  - assert (N.to_nat (off + 1) < List.length buf)%nat
      by (apply nth_error_Some; congruence). lia.
  - destruct (nth_error buf (N.to_nat off)); discriminate.
Qed.

Lemma kad_bytes_len (k : kad_view) :
  len_N (kad_bytes k) = 4 + len_N (kad_view_descriptor k).
Proof. unfold kad_bytes, htons, len_N. cbn [app List.length]. lia. Qed.

Lemma kads_bytes_cons (k : kad_view) (ks : list kad_view) :
  kads_bytes (k :: ks) = (kad_bytes k ++ kads_bytes ks)%list.
Proof. reflexivity. Qed.

Lemma kad_bytes_length_field (pre post : list byte) (k : kad_view) :
  len_N (kad_view_descriptor k) <= 65535 ->
  kad_length (pre ++ kad_bytes k ++ post)%list (len_N pre)
    = Some (len_N (kad_view_descriptor k)).
Proof.
  intros H. unfold kad_length.
  change (field_offset kad.layout "length") with 2.
  rewrite load_ntohs_app_r.
  change (load_ntohs (kad_bytes k ++ post)%list 2)
    with (Some (ntohs (byte_of_N ((len_N (kad_view_descriptor k) mod 65536) / 256))
                      (byte_of_N (len_N (kad_view_descriptor k) mod 256)))).
  now rewrite ntohs_htons_bytes.
Qed.

Lemma read_kad_kad_bytes (pre post : list byte) (k : kad_view) :
  len_N (kad_view_descriptor k) <= 65535 ->
  read_kad (pre ++ kad_bytes k ++ post)%list (len_N pre) = Some k.
Proof.
  intros H. unfold read_kad.
  rewrite kad_bytes_length_field by assumption.
  change (field_offset kad.layout "type") with 0.
  change (field_offset kad.layout "flags") with 1.
  change (field_offset kad.layout "descriptor") with 4.
  rewrite !load8_app_r.
  change (load8 (kad_bytes k ++ post)%list 0) with (Some (kad_view_type k)).
  change (load8 (kad_bytes k ++ post)%list 1) with (Some (kad_view_flags k)).
  change buflen with len_N. rewrite !len_N_app, kad_bytes_len.
  replace (len_N pre + (4 + len_N (kad_view_descriptor k) + len_N post)
           <? len_N pre + 4 + len_N (kad_view_descriptor k))
    with false by (symmetry; apply N.ltb_ge; lia).
  rewrite slice_app_r.
  change (slice (kad_bytes k ++ post)%list 4 (len_N (kad_view_descriptor k)))
    with (slice (kad_view_descriptor k ++ post)%list 0
                (len_N (kad_view_descriptor k))).
  rewrite slice_prefix. now destruct k.
Qed.

Lemma kads_loop_wellformed (ks : list kad_view) :
  forall (pre trailing : list byte) (v : list N),
    len_N (kads_bytes ks) <= 65535 ->
    kads_loop (List.length ks) (pre ++ kads_bytes ks ++ trailing)%list
              (len_N pre + len_N (kads_bytes ks)) (len_N pre) v
    = Some (Returned (v ++ kad_offsets (len_N pre) ks)%list).
Proof.
  induction ks as [| k ks IH]; intros pre trailing v Hfit.
  - rewrite kads_loop_exit by (change (len_N (kads_bytes [])) with 0; lia).
    simpl. now rewrite app_nil_r.
  - rewrite kads_bytes_cons, len_N_app, kad_bytes_len in *.
    cbn [List.length]. rewrite kads_loop_body by lia.
    unfold kad_next. rewrite <- app_assoc.
    rewrite kad_bytes_length_field by lia.
    change (sizeof kad.layout) with 4.
    specialize (IH (pre ++ kad_bytes k)%list trailing (v ++ [len_N pre])%list).
    rewrite len_N_app, kad_bytes_len, <- !app_assoc in IH.
    cbn [kad_offsets]. rewrite kad_bytes_len.
    replace (len_N pre + (4 + len_N (kad_view_descriptor k) + len_N (kads_bytes ks)))
      with (len_N pre + (4 + len_N (kad_view_descriptor k)) + len_N (kads_bytes ks))
      by lia.
    replace (len_N pre + (len_N (kad_view_descriptor k) + 4))
      with (len_N pre + (4 + len_N (kad_view_descriptor k))) by lia.
    rewrite IH by lia. reflexivity.
Qed.

Lemma read_kad_wellformed (ks : list kad_view) :
  forall (pre trailing : list byte),
    len_N (kads_bytes ks) <= 65535 ->
    map (read_kad (pre ++ kads_bytes ks ++ trailing)%list)
        (kad_offsets (len_N pre) ks)
    = map Some ks.
Proof.
  induction ks as [| k ks IH]; intros pre trailing Hfit; [reflexivity|].
  rewrite kads_bytes_cons, len_N_app, kad_bytes_len in Hfit.
  rewrite kads_bytes_cons. cbn [kad_offsets map]. f_equal.
  - rewrite <- app_assoc. apply read_kad_kad_bytes. lia.
  - specialize (IH (pre ++ kad_bytes k)%list trailing).
    rewrite len_N_app, <- !app_assoc in IH. rewrite <- app_assoc.
    apply IH. lia.
Qed.

(** X1: on a well-formed page the walker finds every record. When the
    fixed region of a page is followed by records laid out one after the
    other as [struct kad], and the page length counts exactly the bytes
    from the end of the header to the end of the last record, the walker
    returns one reference per record, in order, each at the offset where
    its record starts, and reading type, flags and descriptor through the
    references gives back the records; bytes after the declared boundary
    play no part. *)
Theorem read_page_kads_wellformed :
  forall (Page : struct_def) (fixed : list byte) (ks : list kad_view)
         (trailing : list byte),
    len_N fixed = sizeof Page ->
    page_length fixed = Some (sizeof Page + len_N (kads_bytes ks) - 4) ->
    read_page_kads (List.length ks) Page (fixed ++ kads_bytes ks ++ trailing)%list
      = Some (Returned (kad_offsets (sizeof Page) ks)) /\
    map (read_kad (fixed ++ kads_bytes ks ++ trailing)%list)
        (kad_offsets (sizeof Page) ks)
      = map Some ks.
Proof.
  intros Page fixed ks trailing Hlen Hpl.
  unfold page_length in Hpl.
  change (field_offset page_header.layout "length") with 2 in Hpl.
  pose proof (load_ntohs_some_inside _ _ _ Hpl) as Hin.
  pose proof (load_ntohs_bound _ _ _ Hpl) as Hb.
  change buflen with len_N in Hin.
  assert (Hfit : len_N (kads_bytes ks) <= 65535) by lia.
  split.
  - unfold read_page_kads, page_end, page_length.
    change (field_offset page_header.layout "length") with 2.
    rewrite load_ntohs_app_l by lia. rewrite Hpl.
    change (sizeof page_header.layout) with 4.
    replace (sizeof Page + len_N (kads_bytes ks) - 4 + 4)
      with (len_N fixed + len_N (kads_bytes ks)) by lia.
    rewrite <- Hlen.
    apply (kads_loop_wellformed ks fixed trailing [] Hfit).
  - rewrite <- Hlen. now apply read_kad_wellformed.
Qed.

Lemma read_page_kads_wellformed_witness :
  read_page_kads 2 page_des.layout des_two_kads = Some (Returned [24; 30]) /\
  map (read_kad des_two_kads) [24; 30]
    = [ Some {| kad_view_type := kad_type.ukad; kad_view_flags := x00;
                kad_view_descriptor := [x41; x42] |};
        Some {| kad_view_type := kad_type.nonce; kad_view_flags := x00;
                kad_view_descriptor := [] |} ].
Proof.
  exact (read_page_kads_wellformed page_des.layout
           ([x00; x20; x00; x1e] ++ zeros 20)%list
           [ {| kad_view_type := kad_type.ukad; kad_view_flags := x00;
                kad_view_descriptor := [x41; x42] |};
             {| kad_view_type := kad_type.nonce; kad_view_flags := x00;
                kad_view_descriptor := [] |} ]
           [] eq_refl eq_refl).
Defined.

(** ** Edge behaviour and invariants of the walker *)

(** X2: the walker returns the empty vector exactly when the declared
    boundary is at or before the end of the fixed region. A page whose
    declared length is shorter than its own fixed region is therefore
    accepted without complaint, as a page with no record. *)
Theorem read_page_kads_empty_iff :
  forall (fuel : nat) (Page : struct_def) (buf : buffer),
    read_page_kads fuel Page buf = Some (Returned []) <->
    exists end_, page_end buf = Some end_ /\ end_ <= sizeof Page.
Proof.
  intros fuel Page buf. unfold read_page_kads. split.
  - destruct (page_end buf) as [end_|]; [|discriminate].
    intros H. exists end_. split; [reflexivity|].
    destruct (N.lt_ge_cases (sizeof Page) end_) as [Hlt | Hge]; [|exact Hge].
    apply (kads_loop_nonempty _ _ _ _ _ _ Hlt) in H. now elim H.
  - intros (end_ & -> & Hle). now apply kads_loop_exit.
Qed.

Lemma kad_chain_sorted (buf : buffer) (end_ it final : N) (recs : list N) :
  kad_chain buf end_ it recs final ->
  StronglySorted (fun a b => a + 4 <= b) recs.
Proof.
  induction 1 as [it Hge | it it' rest final Hlt Hn Hc IH].
  - constructor.
  - constructor; [exact IH|].
    apply Forall_forall. intros r Hin.
    apply kad_next_advance in Hn.
    pose proof (kad_chain_starts _ _ _ _ _ Hc r Hin). lia.
Qed.

(** X3: the references the walker returns are in strictly increasing
    order and at least 4 bytes apart, so no two record headers overlap and
    no record is returned twice. *)
Theorem read_page_kads_increasing :
  forall (fuel : nat) (Page : struct_def) (buf : buffer) (v : list N),
    read_page_kads fuel Page buf = Some (Returned v) ->
    StronglySorted (fun a b => a + 4 <= b) v /\ NoDup v.
Proof.
  intros fuel Page buf v H. unfold read_page_kads in H.
  destruct (page_end buf) as [end_|]; [|discriminate].
  apply kads_loop_chain in H. destruct H as (recs & final & Heq & Hc).
  simpl in Heq. subst recs. apply kad_chain_sorted in Hc.
  split; [exact Hc|].
  induction Hc as [| a l Hs IH Hall]; constructor; [|exact IH].
  intros Hin. rewrite Forall_forall in Hall. specialize (Hall a Hin). lia.
Qed.

Lemma read_page_kads_increasing_witness :
  StronglySorted (fun a b => a + 4 <= b) [24; 30] /\ NoDup [24; 30].
Proof.
  exact (read_page_kads_increasing 5 page_des.layout des_two_kads [24; 30] eq_refl).
Defined.

Lemma kad_chain_count (buf : buffer) (end_ it final : N) (recs : list N) :
  kad_chain buf end_ it recs final ->
  recs <> [] -> it + 4 * N.of_nat (List.length recs) < end_ + 4.
Proof.
  induction 1 as [it Hge | it it' rest final Hlt Hn Hc IH]; intros Hne.
  - congruence.
  - apply kad_next_advance in Hn. cbn [List.length].
    destruct rest as [| r rest'].
    + cbn [List.length]. lia.
    + assert (r :: rest' <> []) as Hne' by discriminate.
      specialize (IH Hne'). lia.
Qed.

(** X4: the walker returns at most one record per 4 bytes between the end
    of the fixed region and the declared boundary, rounded up; since the
    boundary is at most 65539 a vector never holds more than 16384 records
    for a page with a header. *)
Theorem read_page_kads_count :
  forall (fuel : nat) (Page : struct_def) (buf : buffer) (v : list N),
    read_page_kads fuel Page buf = Some (Returned v) ->
    exists end_,
      page_end buf = Some end_ /\
      4 * N.of_nat (List.length v) <= end_ - sizeof Page + 3 /\
      (4 <= sizeof Page -> N.of_nat (List.length v) <= 16384).
Proof.
  intros fuel Page buf v H. unfold read_page_kads in H.
  destruct (page_end buf) as [end_|] eqn:E; [|discriminate].
  apply page_end_bound in E.
  apply kads_loop_chain in H. destruct H as (recs & final & Heq & Hc).
  simpl in Heq. subst recs. exists end_. split; [reflexivity|].
  destruct v as [| r rest].
  - cbn [List.length]. lia.
  - assert (Hne : r :: rest <> []) by discriminate.
    pose proof (kad_chain_count _ _ _ _ _ Hc Hne). lia.
Qed.

Lemma read_page_kads_count_witness :
  exists end_,
    page_end des_two_kads = Some end_ /\
    4 * N.of_nat (List.length [24; 30]) <= end_ - sizeof page_des.layout + 3 /\
    (4 <= sizeof page_des.layout -> N.of_nat (List.length [24; 30]) <= 16384).
Proof.
  exact (read_page_kads_count 5 page_des.layout des_two_kads [24; 30] eq_refl).
Defined.

Lemma kad_next_agree (buf buf' : buffer) (it : N) :
  kad_length buf' it = kad_length buf it -> kad_next buf' it = kad_next buf it.
Proof. unfold kad_next. now intros ->. Qed.

Lemma kads_loop_agree (fuel : nat) (buf buf' : buffer) (end_ : N) :
  forall it v0 v,
    kads_loop fuel buf end_ it v0 = Some (Returned v) ->
    (forall r, In r v -> kad_length buf' r = kad_length buf r) ->
    kads_loop fuel buf' end_ it v0 = Some (Returned v).
Proof.
  induction fuel as [| fuel IH]; intros it v0 v H Hag.
  - destruct (N.lt_ge_cases it end_) as [Hlt | Hge].
    + rewrite kads_loop_out_of_fuel in H by assumption. discriminate.
    + rewrite kads_loop_exit in * by assumption. assumption.
  - destruct (N.lt_ge_cases it end_) as [Hlt | Hge].
    + rewrite kads_loop_body in * by assumption.
      destruct (kad_next buf it) as [it'|] eqn:E; [|discriminate].
      pose proof (kads_loop_prefix _ _ _ _ _ _ H) as (recs & Hv & _).
      simpl in Hv. subst v.
      rewrite (kad_next_agree buf buf' it), E.
      * now apply IH.
      * apply Hag. rewrite <- app_assoc. apply in_or_app. right. now left.
    + rewrite kads_loop_exit in * by assumption. assumption.
Qed.

(** X5: the walker reads nothing but length fields. Its result on a page
    is the same on any other buffer that has the same page length and the
    same length field in each record returned: the type, the flags and the
    descriptor bytes of the records, the rest of the fixed region and
    whatever follows the page have no influence on the walk. *)
Theorem read_page_kads_reads_lengths_only :
  forall (fuel : nat) (Page : struct_def) (buf buf' : buffer) (v : list N),
    read_page_kads fuel Page buf = Some (Returned v) ->
    page_length buf' = page_length buf ->
    (forall r, In r v -> kad_length buf' r = kad_length buf r) ->
    read_page_kads fuel Page buf' = Some (Returned v).
Proof.
  intros fuel Page buf buf' v H Hpl Hag.
  unfold read_page_kads, page_end in *. rewrite Hpl.
  destruct (page_length buf) as [len|]; [|discriminate].
  eapply kads_loop_agree; eassumption.
Qed.

(** The page [des_two_kads] with other types, flags and descriptor bytes
    in its records, other bytes in its fixed region and a byte after it. *)
Lemma read_page_kads_reads_lengths_only_witness :
  read_page_kads 5 page_des.layout
    ([xff; xff; x00; x1e] ++ repeat xff 20
       ++ [x04; xff; x00; x02; x00; x00] ++ [x01; x07; x00; x00] ++ [xaa])%list
  = Some (Returned [24; 30]).
Proof.
  apply (read_page_kads_reads_lengths_only 5 page_des.layout des_two_kads).
  - reflexivity.
  - reflexivity.
  - intros r [<- | [<- | []]]; reflexivity.
Defined.

(** X6: a page held in a [page_buffer] whose declared length is at most
    [SSP_PAGE_ALLOCATION] - 7 is walked without leaving the buffer: the
    walker returns, and the 4-byte header of every record it returns lies
    inside the buffer. *)
Theorem read_page_kads_in_page_buffer :
  forall (Page : struct_def) (buf : buffer) (len : N),
    buflen buf = SSP_PAGE_ALLOCATION ->
    page_length buf = Some len ->
    len + 7 <= SSP_PAGE_ALLOCATION ->
    exists v,
      read_page_kads max_iterations Page buf = Some (Returned v) /\
      forall r, In r v -> r + sizeof kad.layout <= SSP_PAGE_ALLOCATION.
Proof.
  intros Page buf len Hbuf Hlen Hfit.
  unfold read_page_kads, page_end. rewrite Hlen.
  change (sizeof page_header.layout) with 4.
  change (sizeof kad.layout) with 4.
  pose proof (load_ntohs_bound _ _ _ Hlen) as Hb.
  destruct (kads_loop_total max_iterations buf (len + 4) (sizeof Page) [])
    as [r Hr]; [rewrite max_iterations_N; lia|].
  destruct (kads_loop_returns max_iterations buf (len + 4)
              ltac:(rewrite Hbuf; lia) _ _ _ Hr) as [v ->].
  exists v. split; [exact Hr|].
  apply kads_loop_chain in Hr. destruct Hr as (recs & final & Heq & Hc).
  simpl in Heq. subst recs. intros r Hin.
  pose proof (kad_chain_starts _ _ _ _ _ Hc r Hin). lia.
Qed.

Lemma read_page_kads_in_page_buffer_witness :
  exists v,
    read_page_kads max_iterations page_des.layout (in_page_buffer des_two_kads)
      = Some (Returned v) /\
    forall r, In r v -> r + sizeof kad.layout <= SSP_PAGE_ALLOCATION.
Proof.
  apply (read_page_kads_in_page_buffer page_des.layout
           (in_page_buffer des_two_kads) 30).
  - vm_compute. reflexivity.
  - vm_compute. reflexivity.
  - vm_compute. discriminate.
Defined.

(** ** Layouts of the remaining structures *)

(** X7: the structures the header asserts a size for and no page claim
    covers have those sizes: [page_header] 4 bytes, [algorithm_descriptor]
    24, [page_dec] 20 and [inquiry_data] 96, with their members at the
    offsets and of the widths listed. *)
Theorem remaining_struct_sizes_and_offsets :
  sizeof page_header.layout = 4 /\
  sizeof algorithm_descriptor.layout = 24 /\
  sizeof page_dec.layout = 20 /\
  sizeof inquiry_data.layout = 96 /\
  member_table 0 page_header.layout = [ ("page_code", 0, 2); ("length", 2, 2) ] /\
  member_table 0 algorithm_descriptor.layout =
    [ ("algorithm_index", 0, 1); ("reserved1", 1, 1); ("length", 2, 2);
      ("flags1", 4, 1); ("flags2", 5, 1);
      ("maximum_ukad_length", 6, 2); ("maximum_akad_length", 8, 2);
      ("key_length", 10, 2); ("flags3", 12, 1);
      ("maximum_eedk_count", 13, 1); ("msdk_count", 14, 2);
      ("maximum_eedk_size", 16, 2); ("reserved2", 18, 2);
      ("security_algorithm_code", 20, 4) ] /\
  member_table 0 page_dec.layout =
    [ ("page_code", 0, 2); ("length", 2, 2); ("flags", 4, 1);
      ("reserved", 5, 15); ("ads", 20, 0) ] /\
  member_table 0 inquiry_data.layout =
    [ ("peripheral", 0, 1); ("flags1", 1, 1); ("version", 2, 1);
      ("flags2", 3, 1); ("additional_length", 4, 1); ("flags3", 5, 1);
      ("flags4", 6, 1); ("flags5", 7, 1); ("vendor", 8, 8);
      ("product_id", 16, 16); ("product_rev", 32, 4);
      ("vendor_specific", 36, 20); ("reserved1", 56, 2);
      ("version_descriptor", 58, 16); ("reserved2", 74, 22) ].
Proof. repeat split. Qed.

(** X8: what [read_page_kads] asks of its template argument holds for the
    four page structures: each begins with the two members of
    [page_header] at the same offsets, so [page.length] is read at offset 2
    of any of them, and the walk of any of them starts at or after the end
    of the header; for the two pages that declare [kads] it starts exactly
    at that member. *)
Theorem pages_have_page_header_layout :
  Forall (fun Page =>
            firstn 2 (member_table 0 Page) = member_table 0 page_header.layout /\
            sizeof page_header.layout <= sizeof Page)
         [ page_des.layout; page_sde.layout; page_nbes.layout; page_dec.layout ] /\
  Forall (fun Page => offsetof Page "kads" = Some (sizeof Page))
         [ page_des.layout; page_nbes.layout ].
Proof. split; repeat constructor; discriminate. Qed.

(** X9: each [header_size] constant is the offset of the first byte that
    the structure's own length member counts: in [algorithm_descriptor]
    the byte after [length], in [inquiry_data] the byte after
    [additional_length], in [sense_data] the byte after
    [additional_sense_length]; and the fixed part of [sense_data] fits in a
    buffer of [maximum_size] bytes. *)
Theorem header_sizes_follow_length_members :
  offsetof algorithm_descriptor.layout "length" = Some 2 /\
  algorithm_descriptor.header_size = 2 + sizeof_type uint16_t /\
  offsetof algorithm_descriptor.layout "flags1" = Some algorithm_descriptor.header_size /\
  offsetof inquiry_data.layout "additional_length" = Some 4 /\
  inquiry_data.header_size = 4 + sizeof_type uint8_t /\
  offsetof inquiry_data.layout "flags3" = Some inquiry_data.header_size /\
  offsetof sense_data.layout "additional_sense_length" = Some 7 /\
  sense_data.header_size = 7 + sizeof_type uint8_t /\
  offsetof sense_data.layout "command_specific_information"
    = Some sense_data.header_size /\
  sizeof sense_data.layout <= sense_data.maximum_size.
Proof. repeat split; discriminate. Qed.

Lemma slice_len (buf : buffer) (off n : N) :
  off + n <= buflen buf -> len_N (slice buf off n) = n.
Proof.
  unfold slice, len_N, buflen. intros H.
  rewrite length_firstn, length_skipn. lia.
Qed.

(** X10: every member of [sense_data] read through [get_sense] lies inside
    the sense buffer: for a buffer of [maximum_size] bytes and any member
    the structure declares, the read succeeds and gives the member's
    width in bytes. *)
Theorem get_sense_inside_buffer :
  forall (sense_buf : buffer) (member : string) (t : ctype),
    is_sense_buffer sense_buf ->
    In (member, t) sense_data.layout ->
    exists bytes,
      get_sense sense_buf member = Some bytes /\
      len_N bytes = sizeof_type t.
Proof.
  intros sense_buf member t Hbuf Hin. unfold is_sense_buffer in Hbuf.
  change sense_data.maximum_size with 252 in Hbuf.
  unfold get_sense.
  repeat (destruct Hin as [[= <- <-] | Hin];
          [ cbn [offsetof member_type sense_data.layout String.eqb Ascii.eqb
                 Bool.eqb option_map sizeof_type];
            rewrite Hbuf;
            (eexists; split; [reflexivity | apply slice_len; rewrite Hbuf; vm_compute; discriminate])
          | ]).
  destruct Hin.
Qed.

Lemma get_sense_inside_buffer_witness :
  exists bytes,
    get_sense (repeat x00 252) "sense_key_specific" = Some bytes /\
    len_N bytes = sizeof_type (array uint8_t 3).
Proof.
  apply (get_sense_inside_buffer (repeat x00 252) "sense_key_specific"
           (array uint8_t 3)).
  - reflexivity.
  - simpl. auto 12.
Defined.

(** ** Bit fields *)

Lemma land_lor_all (x : N) (ms : list N) :
  N.land x (lor_all ms) = lor_all (map (N.land x) ms).
Proof.
  induction ms as [| m ms IH]; simpl.
  - apply N.land_0_r.
  - now rewrite N.land_lor_distr_r, IH.
Qed.

Lemma u8_land_255 (b : byte) : N.land (u8 b) 255 = u8 b.
Proof.
  change 255 with (N.ones 8). rewrite N.land_ones.
  apply N.mod_small. pose proof (u8_bound b). change (2 ^ 8) with 256. lia.
Qed.

(** A byte is the union of its fields when the masks tile it. *)
Lemma tiles_recompose (ms : list N) (b : byte) :
  tiles 255 ms -> lor_all (map (N.land (u8 b)) ms) = u8 b.
Proof.
  intros [_ Hall]. now rewrite <- land_lor_all, Hall, u8_land_255.
Qed.

(** A field is read back whatever the disjoint fields hold. *)
Lemma field_recovered (m x other : N) :
  within x m -> disjoint other m -> N.land (N.lor other x) m = x.
Proof.
  unfold within, disjoint. intros Hx Ho.
  now rewrite N.land_lor_distr_l, Ho, Hx, N.lor_0_l.
Qed.

Lemma disjoint_within (m1 m2 x : N) :
  disjoint m1 m2 -> within x m1 -> disjoint x m2.
Proof.
  unfold disjoint, within. intros Hd Hx.
  rewrite <- Hx, <- N.land_assoc, Hd. apply N.land_0_r.
Qed.

Ltac tiling :=
  unfold tiles; cbn [pairwise_disjoint]; repeat split; repeat constructor.

(** X11: the six fields of [page_sde::flags] tile the byte: check external
    encryption mode (bits 7-6), raw decryption mode control (5-4),
    supplemental decryption key (3) and the three clear-key bits (2, 1, 0)
    share no bit and leave none unused, so a flags byte is the union of
    its six masked fields; and an [sde_rdmc] enumerator placed in the byte
    is read back through its mask whatever the other five fields hold. *)
Theorem sde_flags_fields :
  let masks := [ page_sde.flags_ceem_mask; page_sde.flags_rdmc_mask;
                 page_sde.flags_sdk_mask; page_sde.flags_ckod_mask;
                 page_sde.flags_ckorp_mask; page_sde.flags_ckorl_mask ] in
  tiles 255 masks /\
  map bits_of masks = [ [6; 7]; [4; 5]; [3]; [2]; [1]; [0] ] /\
  (forall b : byte, lor_all (map (N.land (u8 b)) masks) = u8 b) /\
  (forall (rdmc : sde_rdmc.t) (other : N),
      In rdmc sde_rdmc.enumerators ->
      disjoint other page_sde.flags_rdmc_mask ->
      N.land (N.lor other (u8 rdmc)) page_sde.flags_rdmc_mask = u8 rdmc).
Proof.
  intros masks.
  assert (Ht : tiles 255 masks) by (subst masks; tiling).
  repeat split; try apply Ht.
  - intros b. now apply tiles_recompose.
  - intros rdmc other Hin Hd. apply field_recovered; [|exact Hd].
    destruct Hin as [<- | [<- | [<- | []]]]; reflexivity.
Qed.

Lemma sde_flags_fields_witness :
  N.land (N.lor (N.lor page_sde.flags_ceem_mask page_sde.flags_ckod_mask)
                (u8 sde_rdmc.enabled))
         page_sde.flags_rdmc_mask
  = u8 sde_rdmc.enabled.
Proof.
  apply (proj2 (proj2 (proj2 sde_flags_fields)) sde_rdmc.enabled).
  - simpl. auto.
  - reflexivity.
Defined.

(** X12: each of the three flag bytes of [algorithm_descriptor] is tiled
    by its fields, which share no bit and leave none unused, so each byte
    is the union of its masked fields; the maximum EEDK count is the low
    nibble of its byte. *)
Theorem algorithm_descriptor_fields :
  let flags1 := [ algorithm_descriptor.flags1_avfmv_mask;
                  algorithm_descriptor.flags1_sdk_c_mask;
                  algorithm_descriptor.flags1_mac_c_mask;
                  algorithm_descriptor.flags1_delb_c_mask;
                  algorithm_descriptor.flags1_decrypt_c_mask;
                  algorithm_descriptor.flags1_encrypt_c_mask ] in
  let flags2 := [ algorithm_descriptor.flags2_avfcp_mask;
                  algorithm_descriptor.flags2_nonce_mask;
                  algorithm_descriptor.flags2_kadf_c_mask;
                  algorithm_descriptor.flags2_vcelb_c_mask;
                  algorithm_descriptor.flags2_ukadf_mask;
                  algorithm_descriptor.flags2_akadf_mask ] in
  let flags3 := [ algorithm_descriptor.flags3_dkad_c_mask;
                  algorithm_descriptor.flags3_eemc_c_mask;
                  algorithm_descriptor.flags3_rdmc_c_mask;
                  algorithm_descriptor.flags3_earem_mask ] in
  tiles 255 flags1 /\ tiles 255 flags2 /\ tiles 255 flags3 /\
  map bits_of flags1 = [ [7]; [6]; [5]; [4]; [2; 3]; [0; 1] ] /\
  map bits_of flags2 = [ [6; 7]; [4; 5]; [3]; [2]; [1]; [0] ] /\
  map bits_of flags3 = [ [6; 7]; [4; 5]; [1; 2; 3]; [0] ] /\
  bits_of algorithm_descriptor.maximum_eedk_count_mask = [0; 1; 2; 3] /\
  (forall b : byte,
      lor_all (map (N.land (u8 b)) flags1) = u8 b /\
      lor_all (map (N.land (u8 b)) flags2) = u8 b /\
      lor_all (map (N.land (u8 b)) flags3) = u8 b).
Proof.
  intros flags1 flags2 flags3.
  assert (H1 : tiles 255 flags1) by (subst flags1; tiling).
  assert (H2 : tiles 255 flags2) by (subst flags2; tiling).
  assert (H3 : tiles 255 flags3) by (subst flags3; tiling).
  repeat match goal with |- _ /\ _ => split end;
    try assumption; try reflexivity.
  intros b. repeat split; now apply tiles_recompose.
Qed.

(** X13: in [sense_data], the response byte is tiled by the valid bit (7)
    and the response code (6-0), and the flags byte by filemark (7), end
    of medium (6), incorrect length indicator (5), sense data overflow (4)
    and the sense key (3-0). The nine named sense keys are distinct values
    within the sense key field, so a named key placed in the flags byte is
    read back through the mask whatever the four flag bits are. *)
Theorem sense_data_fields :
  let response := [ sense_data.response_valid_mask;
                    sense_data.response_code_mask ] in
  let flags := [ sense_data.flags_filemark_mask; sense_data.flags_eom_mask;
                 sense_data.flags_ili_mask; sense_data.flags_sdat_ovfl_mask;
                 sense_data.flags_sense_key_mask ] in
  tiles 255 response /\ tiles 255 flags /\
  map bits_of response = [ [7]; [0; 1; 2; 3; 4; 5; 6] ] /\
  map bits_of flags = [ [7]; [6]; [5]; [4]; [0; 1; 2; 3] ] /\
  NoDup sense_data.sense_keys /\
  Forall (fun k => within k sense_data.flags_sense_key_mask)
         sense_data.sense_keys /\
  (forall b : byte,
      lor_all (map (N.land (u8 b)) response) = u8 b /\
      lor_all (map (N.land (u8 b)) flags) = u8 b) /\
  (forall key bits : N,
      In key sense_data.sense_keys ->
      disjoint bits sense_data.flags_sense_key_mask ->
      N.land (N.lor bits key) sense_data.flags_sense_key_mask = key).
Proof.
  intros response flags.
  assert (H1 : tiles 255 response) by (subst response; tiling).
  assert (H2 : tiles 255 flags) by (subst flags; tiling).
  assert (Hk : Forall (fun k => within k sense_data.flags_sense_key_mask)
                      sense_data.sense_keys) by (repeat constructor).
  repeat match goal with |- _ /\ _ => split end;
    try assumption; try reflexivity.
  - repeat (constructor; [simpl; intuition discriminate|]). constructor.
  - intros b. split; now apply tiles_recompose.
  - intros key bits Hin Hd. apply field_recovered; [|exact Hd].
    rewrite Forall_forall in Hk. now apply Hk.
Qed.

Lemma sense_data_fields_witness :
  N.land (N.lor (N.lor sense_data.flags_filemark_mask sense_data.flags_ili_mask)
                sense_data.illegal_request)
         sense_data.flags_sense_key_mask
  = sense_data.illegal_request.
Proof.
  apply (proj2 (proj2 (proj2 (proj2 (proj2 (proj2 (proj2 sense_data_fields))))))).
  - simpl. auto 10.
  - reflexivity.
Defined.

(** X14: the fields of the status pages share no bit. In [page_des] the
    scope byte holds the I_T nexus scope (bits 7-5) and the encryption
    scope (2-0), bits 4 and 3 belonging to no field, and the flags byte
    holds parameters control (6-4), VCELB (3), CEEMS (2-1) and RDMD (0),
    bit 7 belonging to no field. In [page_nbes] the status byte is tiled
    by the compression (7-4) and encryption (3-0) status nibbles and the
    flags byte holds EMES (1) and RDMDS (0). In [page_dec] the flags byte
    holds EXTDECC (3-2) and CFG_P (1-0). The authenticated field of a
    record's flags is bits 2-0. *)
Theorem status_page_fields :
  tiles 231 [ page_des.scope_it_nexus_mask; page_des.scope_encryption_mask ] /\
  tiles 127 [ page_des.flags_parameters_control_mask; page_des.flags_vcelb_mask;
              page_des.flags_ceems_mask; page_des.flags_rdmd_mask ] /\
  tiles 255 [ page_nbes.status_compression_mask;
              page_nbes.status_encryption_mask ] /\
  tiles 3 [ page_nbes.flags_emes_mask; page_nbes.flags_rdmds_mask ] /\
  tiles 15 [ page_dec.flags_extdecc_mask; page_dec.flags_cfg_p_mask ] /\
  map bits_of [ page_des.scope_it_nexus_mask; page_des.scope_encryption_mask ]
    = [ [5; 6; 7]; [0; 1; 2] ] /\
  map bits_of [ page_des.flags_parameters_control_mask; page_des.flags_vcelb_mask;
                page_des.flags_ceems_mask; page_des.flags_rdmd_mask ]
    = [ [4; 5; 6]; [3]; [1; 2]; [0] ] /\
  map bits_of [ page_nbes.status_compression_mask;
                page_nbes.status_encryption_mask ]
    = [ [4; 5; 6; 7]; [0; 1; 2; 3] ] /\
  map bits_of [ page_nbes.flags_emes_mask; page_nbes.flags_rdmds_mask ]
    = [ [1]; [0] ] /\
  map bits_of [ page_dec.flags_extdecc_mask; page_dec.flags_cfg_p_mask ]
    = [ [2; 3]; [0; 1] ] /\
  bits_of kad.flags_authenticated_mask = [0; 1; 2] /\
  (forall b : byte,
      lor_all (map (N.land (u8 b))
                   [ page_nbes.status_compression_mask;
                     page_nbes.status_encryption_mask ]) = u8 b).
Proof.
  repeat match goal with |- _ /\ _ => split end; try (tiling; fail);
    try reflexivity.
  intros b. apply tiles_recompose. tiling.
Qed.

(** ** Stream operators *)

Lemma string_app_inj_l (s a b : string) : s ++ a = s ++ b -> a = b.
Proof.
  induction s as [| c s IH]; simpl; intros H; [exact H|].
  injection H as H. now apply IH.
Qed.

Lemma put_encrypt_mode_inj (os : ostream) (m1 m2 : encrypt_mode.t) :
  In m1 [encrypt_mode.off; encrypt_mode.external; encrypt_mode.on] ->
  In m2 [encrypt_mode.off; encrypt_mode.external; encrypt_mode.on] ->
  put_encrypt_mode os m1 = put_encrypt_mode os m2 -> m1 = m2.
Proof.
  intros H1 H2 E. simpl in H1, H2.
  repeat (destruct H1 as [<- | H1]; [|]); try contradiction;
    repeat (destruct H2 as [<- | H2]; [|]); try contradiction;
    try reflexivity;
    apply string_app_inj_l in E; discriminate.
Qed.

Lemma put_decrypt_mode_inj (os : ostream) (m1 m2 : decrypt_mode.t) :
  In m1 [decrypt_mode.off; decrypt_mode.raw; decrypt_mode.on; decrypt_mode.mixed] ->
  In m2 [decrypt_mode.off; decrypt_mode.raw; decrypt_mode.on; decrypt_mode.mixed] ->
  put_decrypt_mode os m1 = put_decrypt_mode os m2 -> m1 = m2.
Proof.
  intros H1 H2 E. simpl in H1, H2.
  repeat (destruct H1 as [<- | H1]; [|]); try contradiction;
    repeat (destruct H2 as [<- | H2]; [|]); try contradiction;
    try reflexivity;
    apply string_app_inj_l in E; discriminate.
Qed.

(** X15: the stream operators tell the named enumerators apart: two
    different enumerators of [encrypt_mode], or of [decrypt_mode], written
    to the same stream leave different text. *)
Theorem mode_output_distinguishes_enumerators :
  (forall (os : ostream) (m1 m2 : encrypt_mode.t),
      In m1 [encrypt_mode.off; encrypt_mode.external; encrypt_mode.on] ->
      In m2 [encrypt_mode.off; encrypt_mode.external; encrypt_mode.on] ->
      m1 <> m2 ->
      put_encrypt_mode os m1 <> put_encrypt_mode os m2) /\
  (forall (os : ostream) (m1 m2 : decrypt_mode.t),
      In m1 [decrypt_mode.off; decrypt_mode.raw; decrypt_mode.on;
             decrypt_mode.mixed] ->
      In m2 [decrypt_mode.off; decrypt_mode.raw; decrypt_mode.on;
             decrypt_mode.mixed] ->
      m1 <> m2 ->
      put_decrypt_mode os m1 <> put_decrypt_mode os m2).
Proof.
  repeat match goal with |- _ /\ _ => split end.
  - intros os m1 m2 H1 H2 Hne E. apply Hne.
    exact (put_encrypt_mode_inj os m1 m2 H1 H2 E).
  - intros os m1 m2 H1 H2 Hne E. apply Hne.
    exact (put_decrypt_mode_inj os m1 m2 H1 H2 E).
Qed.

Lemma mode_output_distinguishes_enumerators_witness :
  put_decrypt_mode "decrypt: " decrypt_mode.raw
    <> put_decrypt_mode "decrypt: " decrypt_mode.mixed.
Proof.
  apply (proj2 mode_output_distinguishes_enumerators "decrypt: "
           decrypt_mode.raw decrypt_mode.mixed).
  - simpl. auto.
  - simpl. auto.
  - discriminate.
Defined.
